(** * Seed-alignment core of the aligner: [aligner_seed.h]

    A shallow embedding of the classes declared in [aligner_seed.h]
    ([Constraint], [Seed], [SeedResults], [SeedSearchMetrics]) together with
    the properties of their member functions.

    Conventions.
    - A C++ [int] is a [Z] in the range [INT_MIN .. INT_MAX]; arithmetic on it
      goes through [wrap_int] (two's complement wrap-around).
    - A [uint32_t] is a [Z] in [0 .. 2^32), a [size_t] or [uint64_t] a [Z] in
      [0 .. 2^64); additions go through [wrap_u64].
    - A C++ [float] is an IEEE-754 binary32 number, represented by the
      standard library's [spec_float] at precision 24 and maximal exponent 128.
    - An [EList<T>] is a [list T]; positions are natural numbers.
    - [assert] statements are compiled out of release builds.  Every member
      function is embedded twice where its assertions matter: the plain
      function is the release behaviour, the [_checked] function runs the
      assertions in the [option] monad ([None] is a failed assertion). *)

From Stdlib Require Import ZArith Lia QArith Qabs.
From Stdlib Require Import Floats.SpecFloat.
From stdpp Require Import base option list sorting.

Local Open Scope Z_scope.

(** ** Machine integers *)

Definition INT_MAX : Z := 2147483647.
Definition INT_MIN : Z := -2147483648.

Definition in_int (z : Z) : Prop := INT_MIN <= z <= INT_MAX.

(** Two's complement reduction of a mathematical integer to an [int]. *)
Definition wrap_int (z : Z) : Z := (z + 2147483648) mod 4294967296 - 2147483648.

Definition UINT32_MAX : Z := 4294967295.
Definition in_u32 (z : Z) : Prop := 0 <= z <= UINT32_MAX.

Definition in_u64 (z : Z) : Prop := 0 <= z < 18446744073709551616.
Definition wrap_u64 (z : Z) : Z := z mod 18446744073709551616.

(** ** Assertions *)

(** [assert b ;; k] continues with [k] when [b] holds and fails otherwise. *)
Definition assert (b : bool) : option unit := if b then Some tt else None.

(** ** Single-precision floats *)

Definition float := spec_float.

Definition f32_prec : Z := 24.
Definition f32_emax : Z := 128.

Definition f32_add : float -> float -> float := SFadd f32_prec f32_emax.
Definition f32_mul : float -> float -> float := SFmul f32_prec f32_emax.
Definition f32_eqb : float -> float -> bool := SFeqb.

(** [m * 2^e] rounded to the nearest float, ties to even. *)
Definition f32_make (m e : Z) : float := binary_normalize f32_prec f32_emax m e false.

(** Conversion of an unsigned integer, as in [(float)rdlen]. *)
Definition f32_of_Z (z : Z) : float := f32_make z 0.

(** [std::numeric_limits<float>::max()] *)
Definition FLT_MAX : float := SFmax_float f32_prec f32_emax.

(** The literal [0.5f]. *)
Definition f32_half : float := f32_make 1 (-1).

(** Conversion [(int)x]: the value is truncated toward zero.  The conversion
    is undefined ([None]) for a NaN, an infinity, and a value whose truncation
    does not fit an [int]. *)
Definition f32_to_int (x : float) : option Z :=
  match x with
  | S754_zero _ => Some 0
  | S754_finite s m e =>
      let t := match e with
               | Zneg p => Z.shiftr (Zpos m) (Zpos p)
               | _ => Z.shiftl (Zpos m) e
               end in
      let v := if s then - t else t in
      if (INT_MIN <=? v) && (v <=? INT_MAX) then Some v else None
  | S754_infinity _ | S754_nan => None
  end.

(** The exact rational value of a finite float (zero for the others). *)
Definition f32_to_Q (x : float) : Q :=
  match x with
  | S754_finite s m e =>
      let a := match e with
               | Zneg p => Qmake (Zpos m) (Pos.pow 2 p)
               | _ => inject_Z (Z.shiftl (Zpos m) e)
               end in
      if s then Qopp a else a
  | _ => inject_Z 0
  end.

(** [z] is an integer nearest to [x], whatever the rule for ties. *)
Definition nearest_int (x : Q) (z : Z) : Prop :=
  Qle (Qabs (Qminus x (inject_Z z))) (Qmake 1 2).

(** [z] is [x] truncated toward zero. *)
Definition truncation_of (x : Q) (z : Z) : Prop :=
  if Qle_bool (inject_Z 0) x
  then Qle (inject_Z z) x /\ Qlt x (inject_Z (z + 1))
  else Qlt (inject_Z (z - 1)) x /\ Qle x (inject_Z z).

(** ** Penalties *)

(** Modelled from the spec: the class [Penalties] is declared in [penalty.h],
    which is not part of this file.  It is a table of four functions [mm(q)],
    [n(q)], [ins(ex)] and [del(ex)] returning non-negative integer
    penalties. *)
Module Penalties.

Record t := mk {
  mm : Z -> Z;
  n : Z -> Z;
  ins : Z -> Z;
  del : Z -> Z
}.

(** Every entry of the table is a non-negative [int]. *)
Definition ok (cm : t) : Prop :=
  forall x, (0 <= mm cm x <= INT_MAX) /\ (0 <= n cm x <= INT_MAX) /\
            (0 <= ins cm x <= INT_MAX) /\ (0 <= del cm x <= INT_MAX).

(** The table that charges the same penalty for everything. *)
Definition uniform (p : Z) : t :=
  mk (fun _ => p) (fun _ => p) (fun _ => p) (fun _ => p).

End Penalties.

(** ** Constraint *)

(** A constraint to apply to an alignment zone, or to an overall alignment. *)
Module Constraint.

Record t := mk {
  edits : Z;            (* # edits permitted *)
  mms : Z;              (* # mismatches permitted *)
  ins : Z;              (* # insertions permitted *)
  dels : Z;             (* # deletions permitted *)
  penalty : Z;          (* penalty total permitted *)
  editsCeil : Z;        (* <= this many edits can be left at the end *)
  mmsCeil : Z;          (* <= this many mismatches can be left at the end *)
  insCeil : Z;          (* <= this many inserts can be left at the end *)
  delsCeil : Z;         (* <= this many deletions can be left at the end *)
  penaltyCeil : Z;      (* <= this much leftover penalty can be left *)
  penConst : float;     (* constant coeff in f(x) where f=penalty *)
  penLinear : float;    (* linear coeff in f(x) where f=penalty *)
  instantiated : bool   (* whether constraint is instantiated w/r/t read len *)
}.

Definition set_edits (v : Z) (c : t) : t :=
  mk v (mms c) (ins c) (dels c) (penalty c) (editsCeil c) (mmsCeil c)
     (insCeil c) (delsCeil c) (penaltyCeil c) (penConst c) (penLinear c)
     (instantiated c).

Definition set_mms (v : Z) (c : t) : t :=
  mk (edits c) v (ins c) (dels c) (penalty c) (editsCeil c) (mmsCeil c)
     (insCeil c) (delsCeil c) (penaltyCeil c) (penConst c) (penLinear c)
     (instantiated c).

Definition set_ins (v : Z) (c : t) : t :=
  mk (edits c) (mms c) v (dels c) (penalty c) (editsCeil c) (mmsCeil c)
     (insCeil c) (delsCeil c) (penaltyCeil c) (penConst c) (penLinear c)
     (instantiated c).

Definition set_dels (v : Z) (c : t) : t :=
  mk (edits c) (mms c) (ins c) v (penalty c) (editsCeil c) (mmsCeil c)
     (insCeil c) (delsCeil c) (penaltyCeil c) (penConst c) (penLinear c)
     (instantiated c).

Definition set_penalty (v : Z) (c : t) : t :=
  mk (edits c) (mms c) (ins c) (dels c) v (editsCeil c) (mmsCeil c)
     (insCeil c) (delsCeil c) (penaltyCeil c) (penConst c) (penLinear c)
     (instantiated c).

Definition set_instantiated (v : bool) (c : t) : t :=
  mk (edits c) (mms c) (ins c) (dels c) (penalty c) (editsCeil c) (mmsCeil c)
     (insCeil c) (delsCeil c) (penaltyCeil c) (penConst c) (penLinear c) v.

(** Every [int] field holds an [int]. *)
Definition wf (c : t) : Prop :=
  in_int (edits c) /\ in_int (mms c) /\ in_int (ins c) /\ in_int (dels c) /\
  in_int (penalty c) /\ in_int (editsCeil c) /\ in_int (mmsCeil c) /\
  in_int (insCeil c) /\ in_int (delsCeil c) /\ in_int (penaltyCeil c).

(** The remaining budgets are counts: none of them is negative. *)
Definition budgets_nonneg (c : t) : Prop :=
  0 <= edits c /\ 0 <= mms c /\ 0 <= ins c /\ 0 <= dels c.

(** [init()]: the fully permissive constraint. *)
Definition init : t :=
  mk INT_MAX INT_MAX INT_MAX INT_MAX INT_MAX INT_MAX INT_MAX INT_MAX INT_MAX
     INT_MAX FLT_MAX FLT_MAX false.

(** The predicates below assert [instantiated] and nothing else. *)

Definition mustMatch (c : t) : bool :=
  ((mms c =? 0) && (edits c =? 0)) ||
  (penalty c =? 0) ||
  ((mms c =? 0) && (dels c =? 0) && (ins c =? 0)).

Definition canMismatch (c : t) (q : Z) (cm : Penalties.t) : bool :=
  ((0 <? mms c) || (0 <? edits c)) && (Penalties.mm cm q <=? penalty c).

Definition canN (c : t) (q : Z) (cm : Penalties.t) : bool :=
  ((0 <? mms c) || (0 <? edits c)) && (Penalties.n cm q <=? penalty c).

Definition canDelete (c : t) (ex : Z) (cm : Penalties.t) : bool :=
  ((0 <? dels c) && (0 <? edits c)) && (Penalties.del cm ex <=? penalty c).

Definition canInsert (c : t) (ex : Z) (cm : Penalties.t) : bool :=
  ((0 <? ins c) || (0 <? edits c)) && (Penalties.ins cm ex <=? penalty c).

Definition canGap (c : t) : bool :=
  (((0 <? ins c) || (0 <? dels c)) || (0 <? edits c)) && (0 <? penalty c).

(** [chargeMismatch(q, cm)], release build. *)
Definition chargeMismatch (c : t) (q : Z) (cm : Penalties.t) : t :=
  let c1 := if mms c =? 0 then set_edits (wrap_int (edits c - 1)) c
            else set_mms (wrap_int (mms c - 1)) c in
  set_penalty (wrap_int (penalty c1 - Penalties.mm cm q)) c1.

(** [chargeMismatch(q, cm)] with its assertions. *)
Definition chargeMismatch_checked (c : t) (q : Z) (cm : Penalties.t) : option t :=
  assert (instantiated c) ;;
  c1 ← (if mms c =? 0
        then assert (0 <? edits c) ;; Some (set_edits (wrap_int (edits c - 1)) c)
        else Some (set_mms (wrap_int (mms c - 1)) c));
  let c2 := set_penalty (wrap_int (penalty c1 - Penalties.mm cm q)) c1 in
  assert (0 <=? mms c2) ;;
  assert (0 <=? edits c2) ;;
  assert (0 <=? penalty c2) ;;
  Some c2.

(** [chargeN(q, cm)], release build. *)
Definition chargeN (c : t) (q : Z) (cm : Penalties.t) : t :=
  let c1 := if mms c =? 0 then set_edits (wrap_int (edits c - 1)) c
            else set_mms (wrap_int (mms c - 1)) c in
  set_penalty (wrap_int (penalty c1 - Penalties.n cm q)) c1.

(** [chargeDelete(ex, cm)], release build. *)
Definition chargeDelete (c : t) (ex : Z) (cm : Penalties.t) : t :=
  let c1 := set_dels (wrap_int (dels c - 1)) c in
  let c2 := set_edits (wrap_int (edits c1 - 1)) c1 in
  set_penalty (wrap_int (penalty c2 - Penalties.del cm ex)) c2.

(** [chargeDelete(ex, cm)] with its assertions. *)
Definition chargeDelete_checked (c : t) (ex : Z) (cm : Penalties.t) : option t :=
  assert (instantiated c) ;;
  let c3 := chargeDelete c ex cm in
  assert (0 <=? dels c3) ;;
  assert (0 <=? edits c3) ;;
  assert (0 <=? penalty c3) ;;
  Some c3.

(** [chargeInsert(ex, cm)], release build. *)
Definition chargeInsert (c : t) (ex : Z) (cm : Penalties.t) : t :=
  let c1 := set_ins (wrap_int (ins c - 1)) c in
  let c2 := set_edits (wrap_int (edits c1 - 1)) c1 in
  set_penalty (wrap_int (penalty c2 - Penalties.ins cm ex)) c2.

(** [chargeInsert(ex, cm)] with its assertions. *)
Definition chargeInsert_checked (c : t) (ex : Z) (cm : Penalties.t) : option t :=
  assert (instantiated c) ;;
  let c3 := chargeInsert c ex cm in
  assert (0 <=? ins c3) ;;
  assert (0 <=? edits c3) ;;
  assert (0 <=? penalty c3) ;;
  Some c3.

(** The overloads without arguments: an edit of any quality or extension. *)

(** [canMismatch()] *)
Definition canMismatch_any (c : t) : bool :=
  ((0 <? mms c) || (0 <? edits c)) && (0 <? penalty c).

(** [canN()] *)
Definition canN_any (c : t) : bool := (0 <? mms c) || (0 <? edits c).

(** [canDelete()] *)
Definition canDelete_any (c : t) : bool :=
  ((0 <? dels c) || (0 <? edits c)) && (0 <? penalty c).

(** [canInsert()] *)
Definition canInsert_any (c : t) : bool :=
  ((0 <? ins c) || (0 <? edits c)) && (0 <? penalty c).

(** [chargeN(q, cm)] with its assertions. *)
Definition chargeN_checked (c : t) (q : Z) (cm : Penalties.t) : option t :=
  assert (instantiated c) ;;
  c1 ← (if mms c =? 0
        then assert (0 <? edits c) ;; Some (set_edits (wrap_int (edits c - 1)) c)
        else Some (set_mms (wrap_int (mms c - 1)) c));
  let c2 := set_penalty (wrap_int (penalty c1 - Penalties.n cm q)) c1 in
  assert (0 <=? mms c2) ;;
  assert (0 <=? edits c2) ;;
  assert (0 <=? penalty c2) ;;
  Some c2.

Definition acceptable (c : t) : bool :=
  (edits c <=? editsCeil c) && (mms c <=? mmsCeil c) &&
  (ins c <=? insCeil c) && (dels c <=? delsCeil c) &&
  (penalty c <=? penaltyCeil c).

(** The static [instantiate(rdlen, penConst, penLinear)]:
    [(int)(0.5f + penConst + penLinear * (float)rdlen)]. *)
Definition instantiate_static (rdlen : Z) (pc pl : float) : option Z :=
  f32_to_int (f32_add (f32_add f32_half pc) (f32_mul pl (f32_of_Z rdlen))).

(** The member [instantiate(rdlen)].  It asserts [!instantiated].  The result
    is [None] when the conversion to [int] is undefined. *)
Definition instantiate (c : t) (rdlen : Z) : option t :=
  if negb (f32_eqb (penConst c) FLT_MAX) then
    p ← instantiate_static rdlen (penConst c) (penLinear c);
    Some (set_instantiated true (set_penalty p c))
  else Some (set_instantiated true c).

(** The penalty function [penConst + penLinear * rdlen] of the read length,
    computed exactly. *)
Definition penalty_function (pc pl : float) (rdlen : Z) : Q :=
  Qplus (f32_to_Q pc) (Qmult (f32_to_Q pl) (inject_Z rdlen)).

(** The reading of [instantiate] as a rounding: when [penConst] is not the
    sentinel, the new [penalty] is an integer nearest to the penalty
    function. *)
Definition instantiate_rounds (c : t) (rdlen : Z) : Prop :=
  f32_eqb (penConst c) FLT_MAX = false ->
  exists c', instantiate c rdlen = Some c' /\
             nearest_int (penalty_function (penConst c) (penLinear c) rdlen)
                         (penalty c').

End Constraint.

(** ** Seed *)

(** Values thrown with [throw]; a function that may throw returns an
    [outcome]. *)
Inductive outcome (A : Type) : Type :=
  | Returns (a : A)
  | Throws (e : Z).
Arguments Returns {A} a.
Arguments Throws {A} e.

(** Policy dictating how to size and arrange seeds along the read, and what
    constraints to force on the zones of the seed. *)
Module Seed.

Definition SEED_TYPE_EXACT : Z := 1.
Definition SEED_TYPE_LEFT_TO_RIGHT : Z := 2.
Definition SEED_TYPE_RIGHT_TO_LEFT : Z := 3.
Definition SEED_TYPE_INSIDE_OUT : Z := 4.

(** [overall] is a pointer: [None] is [NULL], [Some c] the constraint it
    points to. *)
Record t := mk {
  len : Z;                        (* length of a seed *)
  type : Z;                       (* dictates anchor portion, direction *)
  overall : option Constraint.t;  (* for the overall alignment *)
  zones : Constraint.t * Constraint.t * Constraint.t
}.

(** [init(ln, ty, oc)]; the zones are default-constructed. *)
Definition init (ln ty : Z) (oc : option Constraint.t) : t :=
  mk ln ty oc (Constraint.init, Constraint.init, Constraint.init).

(** [acceptable()]; undefined when [overall] is [NULL]. *)
Definition acceptable (s : t) : option bool :=
  let '(z0, z1, z2) := zones s in
  o ← overall s;
  Some (Constraint.acceptable z0 && Constraint.acceptable z1 &&
        Constraint.acceptable z2 && Constraint.acceptable o).

Section MmSeeds.

(** The three canned policy builders are declared here and defined in another
    file.  Each receives the seed length, the list of policies and the overall
    constraint by reference, and leaves the updated pair behind. *)
Variables zeroMmSeeds oneMmSeeds twoMmSeeds :
  Z -> list t -> Constraint.t -> list t * Constraint.t.

(** [mmSeeds(mms, ln, pols, oall)] *)
Definition mmSeeds (mms ln : Z) (pols : list t) (oall : Constraint.t)
  : outcome (list t * Constraint.t) :=
  if mms =? 0 then Returns (zeroMmSeeds ln pols oall)
  else if mms =? 1 then Returns (oneMmSeeds ln pols oall)
  else if mms =? 2 then Returns (twoMmSeeds ln pols oall)
  else Throws 1.

End MmSeeds.

End Seed.

(** ** InstantiatedSeed *)

Definition BTDnaString := list Z.
Definition BTString := list Z.

(** A seed plus all data needed to conduct a search of the seed. *)
Module InstantiatedSeed.

Record t := mk {
  steps : list Z;
  zones : list (Z * Z);
  seq : option BTDnaString;
  qual : option BTString;
  cons : Constraint.t * Constraint.t * Constraint.t;
  overall : Constraint.t;
  maxjump : Z;
  seedoff : Z;
  seedoffidx : Z;
  seedtypeidx : Z;
  fw : bool;
  nfiltered : bool;
  s : Seed.t
}.

Definition repOk (_ : t) : bool := true.

End InstantiatedSeed.

(** ** The alignment cache, as the seed results see it *)

(** Modelled from the spec: [QVal], [AlignmentCache] and [Read] are declared
    in [aligner_cache.h] and [read.h], which are not part of this file.  The
    spec calls a QVal an opaque descriptor of a set of index intervals in the
    alignment cache and lists its observers: [numRanges], [numElts], [empty],
    [valid] and [repOk] (validity with respect to a cache).  [qv_reset] is the
    value a QVal holds after [reset()]. *)
Class Externals := {
  QVal : Type;
  AlignmentCache : Type;
  Read : Type;
  qv_valid : QVal -> bool;
  qv_empty : QVal -> bool;
  qv_numRanges : QVal -> Z;
  qv_numElts : QVal -> Z;
  qv_repOk : QVal -> AlignmentCache -> bool;
  qv_reset : QVal
}.

(** What the seed results rely on: a reset QVal is not valid; a QVal that is
    valid with respect to a cache is valid, and its two 32-bit counts satisfy
    [numRanges <= numElts] (every range holds at least one element). *)
Class ExternalsLaws (E : Externals) : Prop := {
  qv_reset_invalid : qv_valid qv_reset = false;
  qv_repOk_valid : forall q ac, qv_repOk q ac = true -> qv_valid q = true;
  qv_repOk_counts : forall q ac, qv_repOk q ac = true ->
    0 <= qv_numRanges q /\ qv_numRanges q <= qv_numElts q /\
    qv_numElts q <= UINT32_MAX
}.

(** Modelled from the spec: a realisation of the observers above, used to run
    the seed results on concrete inputs.  A QVal is an offset into the cache,
    a number of ranges and a number of elements, all 32-bit; the all-ones
    number of ranges marks a QVal that is not valid, and a QVal is empty when
    it has no range. *)
Module ConcreteCache.

Record qval := mk { i_ : Z; rangen_ : Z; eltn_ : Z }.

Definition valid (q : qval) : bool := negb (rangen_ q =? UINT32_MAX).
Definition empty (q : qval) : bool := rangen_ q =? 0.
Definition repOk (q : qval) (_ : unit) : bool :=
  valid q && (0 <=? rangen_ q) && (rangen_ q <=? eltn_ q) &&
  (UINT32_MAX >=? eltn_ q).
Definition reset : qval := mk 0 UINT32_MAX UINT32_MAX.

#[export] Instance externals : Externals := {|
  QVal := qval;
  AlignmentCache := unit;
  Read := unit;
  qv_valid := valid;
  qv_empty := empty;
  qv_numRanges := rangen_;
  qv_numElts := eltn_;
  qv_repOk := repOk;
  qv_reset := reset
|}.

End ConcreteCache.

(** ** SeedResults *)

(** [EList::resize(sz)]: the first [sz] elements are kept and the list is
    padded with default elements up to [sz]. *)
Definition resize {A : Type} (sz : nat) (d : A) (l : list A) : list A :=
  take sz l ++ replicate (sz - length l) d.

(** Holds all of the seed hits associated with a read, divided into
    forward/reverse-complement and stratified by read offset. *)
Module SeedResults.

Section WithExternals.

Context {E : Externals}.

Record t := mk {
  seqFw_ : list BTDnaString;  (* sequences for seeds extracted from forward read *)
  seqRc_ : list BTDnaString;  (* sequences for seeds extracted from reverse-complement read *)
  qualFw_ : list BTString;  (* quality strings for seeds extracted from forward read *)
  qualRc_ : list BTString;  (* quality strings for seeds extracted from reverse-complement read *)
  hitsFw_ : list QVal;  (* hits for forward read representation *)
  hitsRc_ : list QVal;  (* hits for reverse-complement read representation *)
  isFw_ : list (list InstantiatedSeed.t);  (* instantiated seeds, forward read *)
  isRc_ : list (list InstantiatedSeed.t);  (* instantiated seeds, reverse-complement read *)
  sortedFw_ : list bool;  (* true iff corresponding level has been sorted *)
  sortedRc_ : list bool;  (* true iff corresponding level has been sorted *)
  nonzTot_ : Z;  (* number of offsets with non-zero size *)
  nonzFw_ : Z;  (* number of offsets into fw read with non-zero size *)
  nonzRc_ : Z;  (* number of offsets into rc read with non-zero size *)
  numRanges_ : Z;  (* number of ranges added *)
  numElts_ : Z;  (* number of elements added *)
  numRangesFw_ : Z;  (* number of ranges added for fw seeds *)
  numEltsFw_ : Z;  (* number of elements added for fw seeds *)
  numRangesRc_ : Z;  (* number of ranges added for rc seeds *)
  numEltsRc_ : Z;  (* number of elements added for rc seeds *)
  offIdx2off_ : list Z;  (* map from offset indexes to offsets from 5' end *)
  rankOffs_ : list nat;  (* sorted offsets from min to max *)
  rankFws_ : list bool;  (* sorted orientations associated with rankOffs_ *)
  sorted_ : bool;  (* true iff the sort() member has been called since the last reset *)
  numOffs_ : nat;  (* number of different seed offsets possible *)
  read_ : option Read  (* read from which seeds were extracted *)
}.

Definition set_hitsFw (v : list QVal) (s : t) : t :=
  mk (seqFw_ s) (seqRc_ s) (qualFw_ s) (qualRc_ s) v (hitsRc_ s) (isFw_ s)
    (isRc_ s) (sortedFw_ s) (sortedRc_ s) (nonzTot_ s) (nonzFw_ s)
    (nonzRc_ s) (numRanges_ s) (numElts_ s) (numRangesFw_ s) (numEltsFw_ s)
    (numRangesRc_ s) (numEltsRc_ s) (offIdx2off_ s) (rankOffs_ s)
    (rankFws_ s) (sorted_ s) (numOffs_ s) (read_ s).

Definition set_hitsRc (v : list QVal) (s : t) : t :=
  mk (seqFw_ s) (seqRc_ s) (qualFw_ s) (qualRc_ s) (hitsFw_ s) v (isFw_ s)
    (isRc_ s) (sortedFw_ s) (sortedRc_ s) (nonzTot_ s) (nonzFw_ s)
    (nonzRc_ s) (numRanges_ s) (numElts_ s) (numRangesFw_ s) (numEltsFw_ s)
    (numRangesRc_ s) (numEltsRc_ s) (offIdx2off_ s) (rankOffs_ s)
    (rankFws_ s) (sorted_ s) (numOffs_ s) (read_ s).

Definition set_sortedFw (v : list bool) (s : t) : t :=
  mk (seqFw_ s) (seqRc_ s) (qualFw_ s) (qualRc_ s) (hitsFw_ s) (hitsRc_ s)
    (isFw_ s) (isRc_ s) v (sortedRc_ s) (nonzTot_ s) (nonzFw_ s) (nonzRc_ s)
    (numRanges_ s) (numElts_ s) (numRangesFw_ s) (numEltsFw_ s)
    (numRangesRc_ s) (numEltsRc_ s) (offIdx2off_ s) (rankOffs_ s)
    (rankFws_ s) (sorted_ s) (numOffs_ s) (read_ s).

Definition set_sortedRc (v : list bool) (s : t) : t :=
  mk (seqFw_ s) (seqRc_ s) (qualFw_ s) (qualRc_ s) (hitsFw_ s) (hitsRc_ s)
    (isFw_ s) (isRc_ s) (sortedFw_ s) v (nonzTot_ s) (nonzFw_ s) (nonzRc_ s)
    (numRanges_ s) (numElts_ s) (numRangesFw_ s) (numEltsFw_ s)
    (numRangesRc_ s) (numEltsRc_ s) (offIdx2off_ s) (rankOffs_ s)
    (rankFws_ s) (sorted_ s) (numOffs_ s) (read_ s).

Definition set_nonzTot (v : Z) (s : t) : t :=
  mk (seqFw_ s) (seqRc_ s) (qualFw_ s) (qualRc_ s) (hitsFw_ s) (hitsRc_ s)
    (isFw_ s) (isRc_ s) (sortedFw_ s) (sortedRc_ s) v (nonzFw_ s)
    (nonzRc_ s) (numRanges_ s) (numElts_ s) (numRangesFw_ s) (numEltsFw_ s)
    (numRangesRc_ s) (numEltsRc_ s) (offIdx2off_ s) (rankOffs_ s)
    (rankFws_ s) (sorted_ s) (numOffs_ s) (read_ s).

Definition set_nonzFw (v : Z) (s : t) : t :=
  mk (seqFw_ s) (seqRc_ s) (qualFw_ s) (qualRc_ s) (hitsFw_ s) (hitsRc_ s)
    (isFw_ s) (isRc_ s) (sortedFw_ s) (sortedRc_ s) (nonzTot_ s) v
    (nonzRc_ s) (numRanges_ s) (numElts_ s) (numRangesFw_ s) (numEltsFw_ s)
    (numRangesRc_ s) (numEltsRc_ s) (offIdx2off_ s) (rankOffs_ s)
    (rankFws_ s) (sorted_ s) (numOffs_ s) (read_ s).

Definition set_nonzRc (v : Z) (s : t) : t :=
  mk (seqFw_ s) (seqRc_ s) (qualFw_ s) (qualRc_ s) (hitsFw_ s) (hitsRc_ s)
    (isFw_ s) (isRc_ s) (sortedFw_ s) (sortedRc_ s) (nonzTot_ s) (nonzFw_ s)
    v (numRanges_ s) (numElts_ s) (numRangesFw_ s) (numEltsFw_ s)
    (numRangesRc_ s) (numEltsRc_ s) (offIdx2off_ s) (rankOffs_ s)
    (rankFws_ s) (sorted_ s) (numOffs_ s) (read_ s).

Definition set_numRanges (v : Z) (s : t) : t :=
  mk (seqFw_ s) (seqRc_ s) (qualFw_ s) (qualRc_ s) (hitsFw_ s) (hitsRc_ s)
    (isFw_ s) (isRc_ s) (sortedFw_ s) (sortedRc_ s) (nonzTot_ s) (nonzFw_ s)
    (nonzRc_ s) v (numElts_ s) (numRangesFw_ s) (numEltsFw_ s)
    (numRangesRc_ s) (numEltsRc_ s) (offIdx2off_ s) (rankOffs_ s)
    (rankFws_ s) (sorted_ s) (numOffs_ s) (read_ s).

Definition set_numElts (v : Z) (s : t) : t :=
  mk (seqFw_ s) (seqRc_ s) (qualFw_ s) (qualRc_ s) (hitsFw_ s) (hitsRc_ s)
    (isFw_ s) (isRc_ s) (sortedFw_ s) (sortedRc_ s) (nonzTot_ s) (nonzFw_ s)
    (nonzRc_ s) (numRanges_ s) v (numRangesFw_ s) (numEltsFw_ s)
    (numRangesRc_ s) (numEltsRc_ s) (offIdx2off_ s) (rankOffs_ s)
    (rankFws_ s) (sorted_ s) (numOffs_ s) (read_ s).

Definition set_numRangesFw (v : Z) (s : t) : t :=
  mk (seqFw_ s) (seqRc_ s) (qualFw_ s) (qualRc_ s) (hitsFw_ s) (hitsRc_ s)
    (isFw_ s) (isRc_ s) (sortedFw_ s) (sortedRc_ s) (nonzTot_ s) (nonzFw_ s)
    (nonzRc_ s) (numRanges_ s) (numElts_ s) v (numEltsFw_ s)
    (numRangesRc_ s) (numEltsRc_ s) (offIdx2off_ s) (rankOffs_ s)
    (rankFws_ s) (sorted_ s) (numOffs_ s) (read_ s).

Definition set_numEltsFw (v : Z) (s : t) : t :=
  mk (seqFw_ s) (seqRc_ s) (qualFw_ s) (qualRc_ s) (hitsFw_ s) (hitsRc_ s)
    (isFw_ s) (isRc_ s) (sortedFw_ s) (sortedRc_ s) (nonzTot_ s) (nonzFw_ s)
    (nonzRc_ s) (numRanges_ s) (numElts_ s) (numRangesFw_ s) v
    (numRangesRc_ s) (numEltsRc_ s) (offIdx2off_ s) (rankOffs_ s)
    (rankFws_ s) (sorted_ s) (numOffs_ s) (read_ s).

Definition set_numRangesRc (v : Z) (s : t) : t :=
  mk (seqFw_ s) (seqRc_ s) (qualFw_ s) (qualRc_ s) (hitsFw_ s) (hitsRc_ s)
    (isFw_ s) (isRc_ s) (sortedFw_ s) (sortedRc_ s) (nonzTot_ s) (nonzFw_ s)
    (nonzRc_ s) (numRanges_ s) (numElts_ s) (numRangesFw_ s) (numEltsFw_ s)
    v (numEltsRc_ s) (offIdx2off_ s) (rankOffs_ s) (rankFws_ s) (sorted_ s)
    (numOffs_ s) (read_ s).

Definition set_numEltsRc (v : Z) (s : t) : t :=
  mk (seqFw_ s) (seqRc_ s) (qualFw_ s) (qualRc_ s) (hitsFw_ s) (hitsRc_ s)
    (isFw_ s) (isRc_ s) (sortedFw_ s) (sortedRc_ s) (nonzTot_ s) (nonzFw_ s)
    (nonzRc_ s) (numRanges_ s) (numElts_ s) (numRangesFw_ s) (numEltsFw_ s)
    (numRangesRc_ s) v (offIdx2off_ s) (rankOffs_ s) (rankFws_ s)
    (sorted_ s) (numOffs_ s) (read_ s).

Definition set_rankOffs (v : list nat) (s : t) : t :=
  mk (seqFw_ s) (seqRc_ s) (qualFw_ s) (qualRc_ s) (hitsFw_ s) (hitsRc_ s)
    (isFw_ s) (isRc_ s) (sortedFw_ s) (sortedRc_ s) (nonzTot_ s) (nonzFw_ s)
    (nonzRc_ s) (numRanges_ s) (numElts_ s) (numRangesFw_ s) (numEltsFw_ s)
    (numRangesRc_ s) (numEltsRc_ s) (offIdx2off_ s) v (rankFws_ s)
    (sorted_ s) (numOffs_ s) (read_ s).

Definition set_rankFws (v : list bool) (s : t) : t :=
  mk (seqFw_ s) (seqRc_ s) (qualFw_ s) (qualRc_ s) (hitsFw_ s) (hitsRc_ s)
    (isFw_ s) (isRc_ s) (sortedFw_ s) (sortedRc_ s) (nonzTot_ s) (nonzFw_ s)
    (nonzRc_ s) (numRanges_ s) (numElts_ s) (numRangesFw_ s) (numEltsFw_ s)
    (numRangesRc_ s) (numEltsRc_ s) (offIdx2off_ s) (rankOffs_ s) v
    (sorted_ s) (numOffs_ s) (read_ s).

Definition set_sorted (v : bool) (s : t) : t :=
  mk (seqFw_ s) (seqRc_ s) (qualFw_ s) (qualRc_ s) (hitsFw_ s) (hitsRc_ s)
    (isFw_ s) (isRc_ s) (sortedFw_ s) (sortedRc_ s) (nonzTot_ s) (nonzFw_ s)
    (nonzRc_ s) (numRanges_ s) (numElts_ s) (numRangesFw_ s) (numEltsFw_ s)
    (numRangesRc_ s) (numEltsRc_ s) (offIdx2off_ s) (rankOffs_ s)
    (rankFws_ s) v (numOffs_ s) (read_ s).

(** [clear()] *)
Definition clear (s : t) : t :=
  mk (seqFw_ s) (seqRc_ s) (qualFw_ s) (qualRc_ s) (hitsFw_ s) (hitsRc_ s)
    (isFw_ s) (isRc_ s) [] [] 0 0 0 0 0 0 0 0 0 (offIdx2off_ s) [] []
    (sorted_ s) (numOffs_ s) None.

(** The loop [for(i = 0; i < n; i++) l[i] = d]. *)
Definition fill {A : Type} (n : nat) (d : A) (l : list A) : list A :=
  fold_left (fun l i => <[i := d]> l) (seq 0 n) l.

(** [reset(read, offIdx2off, numOffs)], release build.  Every array is
    resized to [numOffs]; the loop then overwrites the first [numOffs] slots
    of the hit, sorted-flag and instantiated-seed arrays. *)
Definition reset (s : t) (read : Read) (offIdx2off : list Z) (numOffs : nat) : t :=
  let s := clear s in
  mk (resize numOffs [] (seqFw_ s)) (resize numOffs [] (seqRc_ s))
    (resize numOffs [] (qualFw_ s)) (resize numOffs [] (qualRc_ s))
    (fill numOffs qv_reset (resize numOffs qv_reset (hitsFw_ s)))
    (fill numOffs qv_reset (resize numOffs qv_reset (hitsRc_ s)))
    (fill numOffs [] (resize numOffs [] (isFw_ s)))
    (fill numOffs [] (resize numOffs [] (isRc_ s)))
    (fill numOffs false (resize numOffs false (sortedFw_ s)))
    (fill numOffs false (resize numOffs false (sortedRc_ s)))
    (nonzTot_ s) (nonzFw_ s) (nonzRc_ s) (numRanges_ s) (numElts_ s)
    (numRangesFw_ s) (numEltsFw_ s) (numRangesRc_ s) (numEltsRc_ s)
    offIdx2off (rankOffs_ s) (rankFws_ s) false numOffs (Some read).

(** [reset] with its assertion [assert_gt(numOffs, 0)]. *)
Definition reset_checked (s : t) (read : Read) (offIdx2off : list Z)
    (numOffs : nat) : option t :=
  assert (0 <? numOffs)%nat ;;
  Some (reset s read offIdx2off numOffs).

(** The accessors [numRanges()], [numElts()], [empty()], [nonzeroOffsets()]. *)
Definition numRanges (s : t) : Z := numRanges_ s.
Definition numElts (s : t) : Z := numElts_ s.
Definition empty (s : t) : bool := numRanges s =? 0.
Definition nonzeroOffsets (s : t) : Z := nonzTot_ s.

(** The inner loop of [repOk]: the buckets [0 .. numOffs) of one orientation
    that hold a valid QVal with at least one range are counted into [nonzs],
    and every valid bucket is checked against the cache when one is given. *)
Definition repOk_scan (ac : option AlignmentCache) (rrs : list QVal)
    (numOffs : nat) (nonzs : Z) : option Z :=
  fold_left (fun acc i =>
           nonzs ← acc;
           q ← rrs !! i;
           if qv_valid q then
             let nonzs := if 0 <? qv_numRanges q then nonzs + 1 else nonzs in
             match ac with
             | Some c => assert (qv_repOk q c) ;; Some nonzs
             | None => Some nonzs
             end
           else Some nonzs)
        (seq 0 numOffs) (Some nonzs).

(** [repOk(ac, requireInited)]: [Some true] when every assertion holds. *)
Definition repOk_checked (s : t) (ac : option AlignmentCache)
    (requireInited : bool) : option bool :=
  assert (negb requireInited || bool_decide (is_Some (read_ s))) ;;
  match read_ s with
  | Some _ =>
      assert (0 <? numOffs_ s)%nat ;;
      assert (numOffs_ s =? length (hitsFw_ s))%nat ;;
      assert (numOffs_ s =? length (hitsRc_ s))%nat ;;
      assert (numRanges_ s <=? numElts_ s) ;;
      assert (nonzTot_ s <=? numRanges_ s) ;;
      nonzs ← repOk_scan ac (hitsRc_ s) (numOffs_ s) 0;
      nonzs ← repOk_scan ac (hitsFw_ s) (numOffs_ s) nonzs;
      assert (nonzs =? nonzTot_ s) ;;
      Some true
  | None => Some true
  end.

(** [add(qv, ac, seedIdx, seedFw, seedLen)], release build. *)
Definition add (s : t) (qv : QVal) (ac : AlignmentCache) (seedIdx : nat)
    (seedFw : bool) (seedLen : Z) : t :=
  if qv_empty qv then s else
  let s :=
    if seedFw then
      let s := set_hitsFw (<[seedIdx := qv]> (hitsFw_ s)) s in
      let s := set_numEltsFw (wrap_u64 (numEltsFw_ s + qv_numElts qv)) s in
      let s := set_numRangesFw (wrap_u64 (numRangesFw_ s + qv_numRanges qv)) s in
      if 0 <? qv_numRanges qv then set_nonzFw (wrap_u64 (nonzFw_ s + 1)) s else s
    else
      let s := set_hitsRc (<[seedIdx := qv]> (hitsRc_ s)) s in
      let s := set_numEltsRc (wrap_u64 (numEltsRc_ s + qv_numElts qv)) s in
      let s := set_numRangesRc (wrap_u64 (numRangesRc_ s + qv_numRanges qv)) s in
      if 0 <? qv_numRanges qv then set_nonzRc (wrap_u64 (nonzRc_ s + 1)) s else s in
  let s := set_numElts (wrap_u64 (numElts_ s + qv_numElts qv)) s in
  let s := set_numRanges (wrap_u64 (numRanges_ s + qv_numRanges qv)) s in
  if 0 <? qv_numRanges qv then set_nonzTot (wrap_u64 (nonzTot_ s + 1)) s else s.

(** The bucket that [add] writes. *)
Definition bucket (s : t) (fw : bool) (i : nat) : option QVal :=
  if fw then hitsFw_ s !! i else hitsRc_ s !! i.

(** What [add] asserts about its arguments before it changes anything: the
    QVal is valid with respect to the cache, the index is within the arrays,
    [reset] has been called, and (for a QVal that is not empty) the target
    bucket is not yet set. *)
Definition add_pre (s : t) (qv : QVal) (ac : AlignmentCache) (seedIdx : nat)
    (seedFw : bool) : bool :=
  qv_repOk qv ac &&
  (seedIdx <? length (hitsFw_ s))%nat &&
  (0 <? numOffs_ s)%nat &&
  (qv_empty qv ||
   match bucket s seedFw seedIdx with
   | Some q => negb (qv_valid q)
   | None => false
   end).

(** [add] with all of its assertions, the two calls of [repOk] included. *)
Definition add_checked (s : t) (qv : QVal) (ac : AlignmentCache)
    (seedIdx : nat) (seedFw : bool) (seedLen : Z) : option t :=
  assert (qv_repOk qv ac) ;;
  repOk_checked s (Some ac) false ;;
  assert (seedIdx <? length (hitsFw_ s))%nat ;;
  assert (0 <? numOffs_ s)%nat ;;
  if qv_empty qv then Some s else
  q ← bucket s seedFw seedIdx;
  assert (negb (qv_valid q)) ;;
  let s' := add s qv ac seedIdx seedFw seedLen in
  repOk_checked s' (Some ac) false ;;
  Some s'.

(** *** Sorting *)

(** One test of the inner loop of [sort]: bucket [i] of the orientation [fw]
    replaces the running minimum [(minsz, minidx, minfw)] when it is valid,
    holds at least one element, is not yet ranked and is strictly smaller. *)
Definition sort_visit (rrs : list QVal) (sorted : list bool) (fw : bool)
    (acc : Z * nat * bool) (i : nat) : Z * nat * bool :=
  let '(minsz, minidx, minfw) := acc in
  match rrs !! i, sorted !! i with
  | Some q, Some b =>
      if qv_valid q && (0 <? qv_numElts q) && negb b && (qv_numElts q <? minsz)
      then (qv_numElts q, i, fw)
      else acc
  | _, _ => acc
  end.

(** The two nested loops: [fw = 0] (reverse-complement buckets) is scanned
    first, then [fw = 1] (forward buckets). *)
Definition sort_scan (s : t) : Z * nat * bool :=
  let acc := (UINT32_MAX, 0%nat, true) in
  let acc := fold_left (sort_visit (hitsRc_ s) (sortedRc_ s) false)
                       (seq 0 (numOffs_ s)) acc in
  fold_left (sort_visit (hitsFw_ s) (sortedFw_ s) true)
            (seq 0 (numOffs_ s)) acc.

(** One iteration of the [while] loop of [sort]. *)
Definition sort_step (s : t) : t :=
  let '(minsz, minidx, minfw) := sort_scan s in
  let s := if minfw then set_sortedFw (<[minidx := true]> (sortedFw_ s)) s
           else set_sortedRc (<[minidx := true]> (sortedRc_ s)) s in
  let s := set_rankOffs (rankOffs_ s ++ [minidx]) s in
  set_rankFws (rankFws_ s ++ [minfw]) s.

(** The [while(rankOffs_.size() < nonzTot_)] loop with a bound on the number
    of iterations; [None] when the bound is reached. *)
Fixpoint sort_loop (fuel : nat) (s : t) : option t :=
  if Z.of_nat (length (rankOffs_ s)) <? nonzTot_ s then
    match fuel with
    | O => None
    | S fuel => sort_loop fuel (sort_step s)
    end
  else Some (set_sorted true s).

(** [sort()]: selection sort.  Every iteration appends one rank, so
    [nonzTot_] iterations are enough. *)
Definition sort (s : t) : option t := sort_loop (Z.to_nat (nonzTot_ s)) s.

(** [hitsByRank(r, offidx, off, fw, seedlen)]: the hits of rank [r] together
    with the four output parameters.  [None] when an array is read out of
    range. *)
Definition hitsByRank (s : t) (r : nat) : option (QVal * nat * Z * bool * Z) :=
  fw ← rankFws_ s !! r;
  offidx ← rankOffs_ s !! r;
  off ← offIdx2off_ s !! offidx;
  let seqs := if fw : bool then seqFw_ s else seqRc_ s in
  let hits := if fw then hitsFw_ s else hitsRc_ s in
  sq ← seqs !! offidx;
  q ← hits !! offidx;
  Some (q, offidx, off, fw, Z.of_nat (length (sq : list Z)) mod 4294967296).

(** [hitsByRank] with its assertions [sorted_] and [r < nonzTot_]. *)
Definition hitsByRank_checked (s : t) (r : nat)
  : option (QVal * nat * Z * bool * Z) :=
  assert (sorted_ s) ;;
  assert (Z.of_nat r <? nonzTot_ s) ;;
  hitsByRank s r.

(** [hitsAtOffIdx(fw, seedoffidx)]; [None] when the array is read out of
    range. *)
Definition hitsAtOffIdx (s : t) (fw : bool) (seedoffidx : nat) : option QVal :=
  if fw then hitsFw_ s !! seedoffidx else hitsRc_ s !! seedoffidx.

(** [hitsAtOffIdx] with its assertions [seedoffidx < numOffs_] and
    [repOk(NULL)]. *)
Definition hitsAtOffIdx_checked (s : t) (fw : bool) (seedoffidx : nat)
  : option QVal :=
  assert (seedoffidx <? numOffs_ s)%nat ;;
  repOk_checked s None false ;;
  hitsAtOffIdx s fw seedoffidx.

(** The remaining accessors of the counters. *)
Definition numRangesFw (s : t) : Z := numRangesFw_ s.
Definition numEltsFw (s : t) : Z := numEltsFw_ s.
Definition numRangesRc (s : t) : Z := numRangesRc_ s.
Definition numEltsRc (s : t) : Z := numEltsRc_ s.
Definition numOffs (s : t) : nat := numOffs_ s.
Definition nonzeroOffsetsFw (s : t) : Z := nonzFw_ s.
Definition nonzeroOffsetsRc (s : t) : Z := nonzRc_ s.


Definition qualByRank (s : t) (r : nat) : option BTString :=
  fw ← rankFws_ s !! r;
  offidx ← rankOffs_ s !! r;
  (if fw : bool then qualFw_ s else qualRc_ s) !! offidx.

(** *** Sequences of operations *)

(** A call of [reset] or of [add]. *)
Inductive op : Type :=
  | Reset (read : Read) (offIdx2off : list Z) (numOffs : nat)
  | Add (qv : QVal) (ac : AlignmentCache) (seedIdx : nat) (seedFw : bool)
        (seedLen : Z).

(** A call goes through when the assertions on its arguments hold. *)
Definition step (s : t) (o : op) : option t :=
  match o with
  | Reset read offIdx2off numOffs => reset_checked s read offIdx2off numOffs
  | Add qv ac seedIdx seedFw seedLen =>
      assert (add_pre s qv ac seedIdx seedFw) ;;
      Some (add s qv ac seedIdx seedFw seedLen)
  end.

Fixpoint run (s : t) (ops : list op) : option t :=
  match ops with
  | [] => Some s
  | o :: ops => s' ← step s o; run s' ops
  end.

End WithExternals.

Arguments t E : clear implicits.
Arguments op E : clear implicits.

End SeedResults.

(** ** SeedSearchMetrics *)

(** A summary of what the seed aligner did.  The mutex [lock] guards the
    counters and has no value of its own. *)
Module SeedSearchMetrics.

Record t := mk {
  seedsearch : Z;    (* # times aligner executed the search strategy *)
  possearch : Z;     (* # offsets where aligner executed >= 1 strategy *)
  intrahit : Z;      (* # offsets where current-read cache had the answer *)
  interhit : Z;      (* # offsets where across-read cache had the answer *)
  filteredseed : Z;  (* # seed instantiations skipped due to Ns *)
  ooms : Z;          (* out-of-memory errors *)
  bwops : Z;         (* Burrows-Wheeler operations *)
  bweds : Z          (* Burrows-Wheeler edits *)
}.

(** Every counter holds a [uint64_t]. *)
Definition wf (m : t) : Prop :=
  in_u64 (seedsearch m) /\ in_u64 (possearch m) /\ in_u64 (intrahit m) /\
  in_u64 (interhit m) /\ in_u64 (filteredseed m) /\ in_u64 (ooms m) /\
  in_u64 (bwops m) /\ in_u64 (bweds m).

(** None of the eight sums of two metrics exceeds a [uint64_t]. *)
Definition sums_fit (a b : t) : Prop :=
  in_u64 (seedsearch a + seedsearch b) /\ in_u64 (possearch a + possearch b) /\
  in_u64 (intrahit a + intrahit b) /\ in_u64 (interhit a + interhit b) /\
  in_u64 (filteredseed a + filteredseed b) /\ in_u64 (ooms a + ooms b) /\
  in_u64 (bwops a + bwops b) /\ in_u64 (bweds a + bweds b).

(** [merge(m, getLock)] *)
Definition merge (self m : t) (getLock : bool) : t :=
  mk (wrap_u64 (seedsearch self + seedsearch m))
     (wrap_u64 (possearch self + possearch m))
     (wrap_u64 (intrahit self + intrahit m))
     (wrap_u64 (interhit self + interhit m))
     (wrap_u64 (filteredseed self + filteredseed m))
     (wrap_u64 (ooms self + ooms m))
     (wrap_u64 (bwops self + bwops m))
     (wrap_u64 (bweds self + bweds m)).

(** [reset()] *)
Definition reset (self : t) : t := mk 0 0 0 0 0 0 0 0.

End SeedSearchMetrics.

(** ** Merging the metrics of several threads *)

(** The calls [acc.merge(m)] for each [m] of [ms], in turn. *)
Definition merge_all (acc : SeedSearchMetrics.t) (ms : list SeedSearchMetrics.t)
    (getLock : bool) : SeedSearchMetrics.t :=
  fold_left (fun a m => SeedSearchMetrics.merge a m getLock) ms acc.

(** ** What the counters of the seed results count *)

Module SeedResultsSpec.

Section WithExternals.

Context {E : Externals}.

(** The sum of a weight over the buckets of one orientation. *)
Fixpoint sum_over (w : QVal -> Z) (l : list QVal) : Z :=
  match l with
  | [] => 0
  | q :: l => w q + sum_over w l
  end.

(** A bucket counts as non-zero when it holds a valid QVal with at least one
    range; a bucket that is not valid holds no range and no element. *)
Definition w_nonz (q : QVal) : Z :=
  if qv_valid q && (0 <? qv_numRanges q) then 1 else 0.
Definition w_ranges (q : QVal) : Z := if qv_valid q then qv_numRanges q else 0.
Definition w_elts (q : QVal) : Z := if qv_valid q then qv_numElts q else 0.

(** The number of (orientation, offset index) buckets holding a valid QVal
    with [numRanges > 0]. *)
Definition nonz_buckets (s : SeedResults.t E) : Z :=
  sum_over w_nonz (SeedResults.hitsFw_ s) + sum_over w_nonz (SeedResults.hitsRc_ s).

(** The invariant of the counters: [nonzTot_] is the number of non-zero
    buckets, [nonzTot_ <= numRanges_ <= numElts_], and the counters of the
    two orientations add up to the totals. *)
Definition counters_consistent (s : SeedResults.t E) : Prop :=
  SeedResults.nonzTot_ s = nonz_buckets s /\
  SeedResults.nonzTot_ s <= SeedResults.numRanges_ s /\
  SeedResults.numRanges_ s <= SeedResults.numElts_ s /\
  SeedResults.numEltsFw_ s + SeedResults.numEltsRc_ s = SeedResults.numElts_ s /\
  SeedResults.numRangesFw_ s + SeedResults.numRangesRc_ s = SeedResults.numRanges_ s.

(** A bucket that is set holds two 32-bit counts with
    [numRanges <= numElts]. *)
Definition bucket_ok (q : QVal) : Prop :=
  qv_valid q = true ->
  0 <= qv_numRanges q /\ qv_numRanges q <= qv_numElts q /\
  qv_numElts q <= UINT32_MAX.

(** The largest number of offsets for which the 64-bit counters cannot wrap
    around: [2 * 2^31] buckets of at most [2^32 - 1] elements each. *)
Definition MAX_OFFS : Z := 2147483648.

(** The invariant that [reset] establishes and [add] maintains: every counter
    is the sum, over the buckets that are set, of what it counts. *)
Record inv (s : SeedResults.t E) : Prop := {
  inv_lenFw : length (SeedResults.hitsFw_ s) = SeedResults.numOffs_ s;
  inv_lenRc : length (SeedResults.hitsRc_ s) = SeedResults.numOffs_ s;
  inv_pos : (0 < SeedResults.numOffs_ s)%nat;
  inv_offs : Z.of_nat (SeedResults.numOffs_ s) <= MAX_OFFS;
  inv_okFw : Forall bucket_ok (SeedResults.hitsFw_ s);
  inv_okRc : Forall bucket_ok (SeedResults.hitsRc_ s);
  inv_eltsFw : SeedResults.numEltsFw_ s = sum_over w_elts (SeedResults.hitsFw_ s);
  inv_eltsRc : SeedResults.numEltsRc_ s = sum_over w_elts (SeedResults.hitsRc_ s);
  inv_rangesFw : SeedResults.numRangesFw_ s = sum_over w_ranges (SeedResults.hitsFw_ s);
  inv_rangesRc : SeedResults.numRangesRc_ s = sum_over w_ranges (SeedResults.hitsRc_ s);
  inv_nonzFw : SeedResults.nonzFw_ s = sum_over w_nonz (SeedResults.hitsFw_ s);
  inv_nonzRc : SeedResults.nonzRc_ s = sum_over w_nonz (SeedResults.hitsRc_ s);
  inv_elts : SeedResults.numElts_ s = SeedResults.numEltsFw_ s + SeedResults.numEltsRc_ s;
  inv_ranges : SeedResults.numRanges_ s =
               SeedResults.numRangesFw_ s + SeedResults.numRangesRc_ s;
  inv_nonz : SeedResults.nonzTot_ s = SeedResults.nonzFw_ s + SeedResults.nonzRc_ s
}.

(** No call of [reset] in the sequence asks for more than [MAX_OFFS]
    offsets. *)
Definition small_resets (ops : list (SeedResults.op E)) : Prop :=
  Forall (fun o => match o with
                   | SeedResults.Reset _ _ numOffs => Z.of_nat numOffs <= MAX_OFFS
                   | SeedResults.Add _ _ _ _ _ => True
                   end) ops.

(** *** Ranking *)

(** A bucket is named by its orientation ([true] is forward) and its offset
    index. *)
Definition bucket_id : Type := bool * nat.

(** The buckets in the order in which [sort] scans them: the
    reverse-complement ones first, then the forward ones, each by increasing
    offset index. *)
Definition all_buckets (numOffs : nat) : list bucket_id :=
  (pair false <$> seq 0 numOffs) ++ (pair true <$> seq 0 numOffs).

(** [b1] is scanned before [b2]. *)
Definition scan_before (b1 b2 : bucket_id) : Prop :=
  (b1.1 = false /\ b2.1 = true) \/ (b1.1 = b2.1 /\ (b1.2 < b2.2)%nat).

(** The ranked buckets, best rank first. *)
Definition ranks (s : SeedResults.t E) : list bucket_id :=
  zip (SeedResults.rankFws_ s) (SeedResults.rankOffs_ s).

(** The sorted flag of a bucket. *)
Definition flag (s : SeedResults.t E) (b : bucket_id) : option bool :=
  (if b.1 then SeedResults.sortedFw_ s else SeedResults.sortedRc_ s) !! b.2.

(** The number of elements of a bucket (0 outside the arrays). *)
Definition elts_at (s : SeedResults.t E) (b : bucket_id) : Z :=
  match SeedResults.bucket s b.1 b.2 with
  | Some q => qv_numElts q
  | None => 0
  end.

(** The bucket holds a valid QVal with at least one element. *)
Definition holds_elts (s : SeedResults.t E) (b : bucket_id) : bool :=
  match SeedResults.bucket s b.1 b.2 with
  | Some q => qv_valid q && (0 <? qv_numElts q)
  | None => false
  end.

(** The buckets holding a valid QVal with at least one element. *)
Definition nonempty_buckets (s : SeedResults.t E) : list bucket_id :=
  filter (fun b => holds_elts s b = true) (all_buckets (SeedResults.numOffs_ s)).

(** [b1] has a better rank than [b2]. *)
Definition ranked_before (s : SeedResults.t E) (b1 b2 : bucket_id) : Prop :=
  exists r1 r2, (r1 < r2)%nat /\ ranks s !! r1 = Some b1 /\ ranks s !! r2 = Some b2.

(** The state in which [sort] is called: [reset] has sized the arrays for
    fewer than [2^32] offsets, no bucket is ranked yet, [nonzTot_] is the
    number of buckets that hold elements, and no bucket holds as many as
    [0xffffffff] elements (the initial value of the running minimum). *)
Record sort_ready (s : SeedResults.t E) : Prop := {
  ready_offs : Z.of_nat (SeedResults.numOffs_ s) <= UINT32_MAX;
  ready_hitsFw : length (SeedResults.hitsFw_ s) = SeedResults.numOffs_ s;
  ready_hitsRc : length (SeedResults.hitsRc_ s) = SeedResults.numOffs_ s;
  ready_seqFw : length (SeedResults.seqFw_ s) = SeedResults.numOffs_ s;
  ready_seqRc : length (SeedResults.seqRc_ s) = SeedResults.numOffs_ s;
  ready_offIdx : (SeedResults.numOffs_ s <= length (SeedResults.offIdx2off_ s))%nat;
  ready_sortedFw :
    SeedResults.sortedFw_ s = replicate (SeedResults.numOffs_ s) false;
  ready_sortedRc :
    SeedResults.sortedRc_ s = replicate (SeedResults.numOffs_ s) false;
  ready_rankOffs : SeedResults.rankOffs_ s = [];
  ready_rankFws : SeedResults.rankFws_ s = [];
  ready_nonz : SeedResults.nonzTot_ s = Z.of_nat (length (nonempty_buckets s));
  ready_small : forall b, holds_elts s b = true -> elts_at s b < UINT32_MAX
}.

(** The bucket can still be chosen by the scan: it holds elements and is not
    ranked yet. *)
Definition eligible (s : SeedResults.t E) (b : bucket_id) : bool :=
  match SeedResults.bucket s b.1 b.2, flag s b with
  | Some q, Some f => qv_valid q && (0 <? qv_numElts q) && negb f
  | _, _ => false
  end.

(** One test of the scan, on a bucket. *)
Definition visit (s : SeedResults.t E) (acc : Z * nat * bool) (b : bucket_id)
  : Z * nat * bool :=
  SeedResults.sort_visit
    (if b.1 then SeedResults.hitsFw_ s else SeedResults.hitsRc_ s)
    (if b.1 then SeedResults.sortedFw_ s else SeedResults.sortedRc_ s)
    b.1 acc b.2.

(** The order of the ranking: fewer elements first; on a tie, the bucket that
    is scanned first. *)
Definition rank_lt (s : SeedResults.t E) (b1 b2 : bucket_id) : Prop :=
  elts_at s b1 < elts_at s b2 \/
  (elts_at s b1 = elts_at s b2 /\ scan_before b1 b2).

(** What an iteration of [sort] does once the scan has chosen [b]: the
    sorted flag of [b] is set and [b] is appended to the rank vectors. *)
Definition mark (s : SeedResults.t E) (b : bucket_id) : SeedResults.t E :=
  let s := if b.1
           then SeedResults.set_sortedFw (<[b.2 := true]> (SeedResults.sortedFw_ s)) s
           else SeedResults.set_sortedRc (<[b.2 := true]> (SeedResults.sortedRc_ s)) s in
  let s := SeedResults.set_rankOffs (SeedResults.rankOffs_ s ++ [b.2]) s in
  SeedResults.set_rankFws (SeedResults.rankFws_ s ++ [b.1]) s.

(** The state with the sorted flags and the rank vectors erased: what [sort]
    leaves as it is, apart from [sorted_]. *)
Definition unranked (s : SeedResults.t E) : SeedResults.t E :=
  SeedResults.set_sortedFw []
    (SeedResults.set_sortedRc []
       (SeedResults.set_rankOffs [] (SeedResults.set_rankFws [] s))).

(** The invariant of the [while] loop of [sort], started in the state [s0]:
    only the sorted flags and the two rank vectors have changed; the ranked
    buckets are those whose flag is set, they hold elements, they are in
    ranking order and each of them is ranked before every bucket that holds
    elements and is not ranked yet; the ranked and the eligible buckets
    together are [nonzTot_] many. *)
Record sorting (s0 s : SeedResults.t E) : Prop := {
  sorting_frame : unranked s = unranked s0;
  sorting_lenFw : length (SeedResults.sortedFw_ s) = SeedResults.numOffs_ s;
  sorting_lenRc : length (SeedResults.sortedRc_ s) = SeedResults.numOffs_ s;
  sorting_lenRank :
    length (SeedResults.rankFws_ s) = length (SeedResults.rankOffs_ s);
  sorting_flags : forall b, b ∈ all_buckets (SeedResults.numOffs_ s) ->
    (flag s b = Some true <-> b ∈ ranks s);
  sorting_ranked : forall b, b ∈ ranks s ->
    b ∈ all_buckets (SeedResults.numOffs_ s) /\ holds_elts s b = true;
  sorting_order : StronglySorted (rank_lt s) (ranks s);
  sorting_rest : forall b c, b ∈ ranks s ->
    c ∈ all_buckets (SeedResults.numOffs_ s) -> eligible s c = true ->
    rank_lt s b c;
  sorting_count :
    Z.of_nat (length (ranks s)) +
    Z.of_nat (length (filter (fun b => eligible s b = true)
                             (all_buckets (SeedResults.numOffs_ s))))
    = SeedResults.nonzTot_ s
}.

(** The number of elements of the hits of rank [r], read through
    [hitsByRank]. *)
Definition rank_elts (s : SeedResults.t E) (r : nat) : option Z :=
  res ← SeedResults.hitsByRank_checked s r;
  Some (qv_numElts res.1.1.1.1).


(** A QVal that is stored holds at least one range and fewer than
    [0xffffffff] elements. *)
Definition stored_ok (q : QVal) : Prop :=
  qv_valid q = true -> 0 < qv_numRanges q /\ qv_numElts q < UINT32_MAX.

(** The calls the aligner makes before it sorts: [reset] is given an offset
    map with an entry per offset, for at most [MAX_OFFS] offsets; a QVal that
    is not empty has at least one range, and no QVal has [0xffffffff]
    elements. *)
Definition rankable_ops (ops : list (SeedResults.op E)) : Prop :=
  Forall (fun o => match o with
                   | SeedResults.Reset _ offs numOffs =>
                       Z.of_nat numOffs <= MAX_OFFS /\ (numOffs <= length offs)%nat
                   | SeedResults.Add qv _ _ _ _ =>
                       (qv_empty qv = false -> 0 < qv_numRanges qv) /\
                       qv_numElts qv < UINT32_MAX
                   end) ops.

(** What [reset] establishes and [add] maintains about the ranking: nothing
    is ranked, the arrays read by [hitsByRank] are long enough, and every
    bucket that is set satisfies [stored_ok]. *)
Record unsorted (s : SeedResults.t E) : Prop := {
  un_sortedFw : SeedResults.sortedFw_ s = replicate (SeedResults.numOffs_ s) false;
  un_sortedRc : SeedResults.sortedRc_ s = replicate (SeedResults.numOffs_ s) false;
  un_rankOffs : SeedResults.rankOffs_ s = [];
  un_rankFws : SeedResults.rankFws_ s = [];
  un_seqFw : length (SeedResults.seqFw_ s) = SeedResults.numOffs_ s;
  un_seqRc : length (SeedResults.seqRc_ s) = SeedResults.numOffs_ s;
  un_offIdx : (SeedResults.numOffs_ s <= length (SeedResults.offIdx2off_ s))%nat;
  un_storedFw : Forall stored_ok (SeedResults.hitsFw_ s);
  un_storedRc : Forall stored_ok (SeedResults.hitsRc_ s)
}.

(** The sequence holds calls of [add] only. *)
Definition only_adds (ops : list (SeedResults.op E)) : Prop :=
  Forall (fun o => match o with
                   | SeedResults.Reset _ _ _ => False
                   | SeedResults.Add _ _ _ _ _ => True
                   end) ops.

(** A bucket counts as holding elements when its QVal is valid with
    [numElts > 0]. *)
Definition w_holds (q : QVal) : Z :=
  if qv_valid q && (0 <? qv_numElts q) then 1 else 0.

(** The reading of the tie rule with the forward bucket first: whenever a
    forward and a reverse-complement bucket hold the same positive number of
    elements, the forward one has the better rank. *)
Definition fw_first_on_ties (s : SeedResults.t E) : Prop :=
  forall i j : nat,
    holds_elts s (true, i) = true -> holds_elts s (false, j) = true ->
    elts_at s (true, i) = elts_at s (false, j) ->
    ranked_before s (true, i) (false, j).

End WithExternals.

End SeedResultsSpec.

(** ** Concrete inputs *)

(** The constraint with one edit left and no insertion left. *)
Definition one_edit_no_ins : Constraint.t :=
  Constraint.mk 1 0 0 0 10 INT_MAX INT_MAX INT_MAX INT_MAX INT_MAX
    FLT_MAX FLT_MAX true.

(** A constraint with two mismatches left and a penalty budget of 60. *)
Definition two_mms : Constraint.t :=
  Constraint.mk 3 2 0 0 60 INT_MAX INT_MAX INT_MAX INT_MAX INT_MAX
    FLT_MAX FLT_MAX true.

(** A constraint not yet instantiated whose penalty function is the constant
    [-1.75]. *)
Definition negative_function : Constraint.t :=
  Constraint.mk INT_MAX INT_MAX INT_MAX INT_MAX INT_MAX INT_MAX INT_MAX
    INT_MAX INT_MAX INT_MAX (f32_make (-7) (-2)) (f32_make 0 0) false.

(** A constraint not yet instantiated whose penalty function is
    [3 + 0.5 * rdlen]. *)
Definition linear_function : Constraint.t :=
  Constraint.mk INT_MAX INT_MAX INT_MAX INT_MAX INT_MAX INT_MAX INT_MAX
    INT_MAX INT_MAX INT_MAX (f32_make 3 0) (f32_make 1 (-1)) false.

(** Two sets of counters. *)
Definition metrics_a : SeedSearchMetrics.t :=
  SeedSearchMetrics.mk 1 2 3 4 5 6 7 18446744073709551615.

Definition metrics_b : SeedSearchMetrics.t :=
  SeedSearchMetrics.mk 10 20 30 40 50 60 70 2.

(** A seed-results object as the constructor leaves it: the arrays are
    empty, [numOffs_] is 0, [read_] is [NULL]; the counters are not
    initialised (here they hold 7). *)
Definition constructed : SeedResults.t ConcreteCache.externals :=
  SeedResults.mk [] [] [] [] [] [] [] [] [] [] 7 7 7 7 7 7 7 7 7 [] [] []
    false 0 None.

(** QVals of the concrete cache: one range with [n] elements, and the valid
    QVal without any range. *)
Definition one_range (n : Z) : @QVal ConcreteCache.externals :=
  ConcreteCache.mk 0 1 n.
Definition no_range : @QVal ConcreteCache.externals := ConcreteCache.mk 0 0 0.

(** The seed results of a read with one offset, right after [reset]. *)
Definition one_offset : SeedResults.t ConcreteCache.externals :=
  SeedResults.reset constructed tt [0] 1.

(** A read with three offsets: hits are added for four of its six buckets;
    the fifth [add] brings an empty QVal. *)
Definition three_offsets_ops : list (SeedResults.op ConcreteCache.externals) :=
  [SeedResults.Reset (E := ConcreteCache.externals) tt [0; 10; 20] 3;
   SeedResults.Add (E := ConcreteCache.externals) (one_range 5) tt 0 true 20;
   SeedResults.Add (E := ConcreteCache.externals) (one_range 3) tt 1 true 20;
   SeedResults.Add (E := ConcreteCache.externals) (one_range 3) tt 1 false 20;
   SeedResults.Add (E := ConcreteCache.externals) (one_range 3) tt 0 false 20;
   SeedResults.Add (E := ConcreteCache.externals) no_range tt 2 false 20].

(** The state these calls lead to. *)
Definition three_offsets_added : SeedResults.t ConcreteCache.externals :=
  Eval vm_compute in
    default constructed (SeedResults.run constructed three_offsets_ops).

(** A read with one offset whose forward and reverse-complement buckets
    both hold three elements. *)
Definition tie_ops : list (SeedResults.op ConcreteCache.externals) :=
  [SeedResults.Reset (E := ConcreteCache.externals) tt [0] 1;
   SeedResults.Add (E := ConcreteCache.externals) (one_range 3) tt 0 true 20;
   SeedResults.Add (E := ConcreteCache.externals) (one_range 3) tt 0 false 20].

Definition tie_added : SeedResults.t ConcreteCache.externals :=
  Eval vm_compute in default constructed (SeedResults.run constructed tie_ops).

Definition tie_sorted : SeedResults.t ConcreteCache.externals :=
  Eval vm_compute in default constructed (SeedResults.sort tie_added).

(** The state [three_offsets_added] after [sort]. *)
Definition three_offsets_sorted : SeedResults.t ConcreteCache.externals :=
  Eval vm_compute in default constructed (SeedResults.sort three_offsets_added).






(** A read with one offset that is sorted twice: the forward bucket gets
    three elements and is sorted, then the reverse-complement bucket gets
    three elements and [sort] is called again. *)
Definition fw_tie_ops : list (SeedResults.op ConcreteCache.externals) :=
  [SeedResults.Reset (E := ConcreteCache.externals) tt [0] 1;
   SeedResults.Add (E := ConcreteCache.externals) (one_range 3) tt 0 true 20].

Definition fw_tie_sorted : SeedResults.t ConcreteCache.externals :=
  Eval vm_compute in
    default constructed
      (SeedResults.sort (default constructed (SeedResults.run constructed fw_tie_ops))).

Definition fw_rc_tie_added : SeedResults.t ConcreteCache.externals :=
  Eval vm_compute in SeedResults.add fw_tie_sorted (one_range 3) tt 0 false 20.

Definition fw_rc_tie_sorted : SeedResults.t ConcreteCache.externals :=
  Eval vm_compute in default constructed (SeedResults.sort fw_rc_tie_added).

(** A constraint with one deletion, one insertion and two edits left. *)
Definition one_gap_each : Constraint.t :=
  Constraint.mk 2 0 1 1 40 INT_MAX INT_MAX INT_MAX INT_MAX INT_MAX
    FLT_MAX FLT_MAX true.

(** A constraint that leaves only unspecific edits: [mms = ins = dels = 0]
    and [edits = 2]. *)
Definition edits_only : Constraint.t :=
  Constraint.mk 2 0 0 0 40 INT_MAX INT_MAX INT_MAX INT_MAX INT_MAX
    FLT_MAX FLT_MAX true.


(** * Properties *)

(** ** Machine integers *)

Lemma wrap_int_id z : in_int z -> wrap_int z = z.
Proof.
  unfold in_int, INT_MIN, INT_MAX, wrap_int. intros H.
  rewrite Z.mod_small by lia. lia.
Qed.

Lemma wrap_int_range z : in_int (wrap_int z).
Proof.
  unfold in_int, INT_MIN, INT_MAX, wrap_int.
  pose proof (Z.mod_pos_bound (z + 2147483648) 4294967296 ltac:(lia)). lia.
Qed.

Lemma wrap_u64_id z : in_u64 z -> wrap_u64 z = z.
Proof. unfold in_u64, wrap_u64. intros H. apply Z.mod_small. lia. Qed.

Lemma wrap_u64_range z : in_u64 (wrap_u64 z).
Proof. unfold in_u64, wrap_u64. apply Z.mod_pos_bound. lia. Qed.

Lemma wrap_u64_add_l a b : wrap_u64 (wrap_u64 a + b) = wrap_u64 (a + b).
Proof. unfold wrap_u64. apply Z.add_mod_idemp_l. lia. Qed.

Lemma wrap_u64_add_r a b : wrap_u64 (a + wrap_u64 b) = wrap_u64 (a + b).
Proof. unfold wrap_u64. apply Z.add_mod_idemp_r. lia. Qed.

(** ** Constraint *)

(** Boolean tests of the embedding, as propositions. *)
Ltac bool_to_prop :=
  repeat match goal with
  | H : _ && _ = true |- _ => apply andb_prop in H; destruct H
  | H : _ || _ = true |- _ => apply orb_prop in H
  | H : (_ <? _) = true |- _ => apply Z.ltb_lt in H
  | H : (_ <=? _) = true |- _ => apply Z.leb_le in H
  | H : (_ =? _) = true |- _ => apply Z.eqb_eq in H
  | H : (_ <? _) = false |- _ => apply Z.ltb_ge in H
  | H : (_ <=? _) = false |- _ => apply Z.leb_gt in H
  | H : (_ =? _) = false |- _ => apply Z.eqb_neq in H
  end.

Lemma canMismatch_iff (c : Constraint.t) (q : Z) (cm : Penalties.t) :
  Constraint.canMismatch c q cm = true <->
  (0 < Constraint.mms c \/ 0 < Constraint.edits c) /\
  Penalties.mm cm q <= Constraint.penalty c.
Proof.
  unfold Constraint.canMismatch.
  rewrite andb_true_iff, orb_true_iff, !Z.ltb_lt, Z.leb_le. tauto.
Qed.

Lemma canInsert_iff (c : Constraint.t) (ex : Z) (cm : Penalties.t) :
  Constraint.canInsert c ex cm = true <->
  (0 < Constraint.ins c \/ 0 < Constraint.edits c) /\
  Penalties.ins cm ex <= Constraint.penalty c.
Proof.
  unfold Constraint.canInsert.
  rewrite andb_true_iff, orb_true_iff, !Z.ltb_lt, Z.leb_le. tauto.
Qed.

(** C1.  [canInsert] does not protect [chargeInsert]: on an instantiated
    constraint with [ins = 0], [edits = 1] and [penalty = 10], with every
    budget non-negative, [canInsert(0, pens)] is true for the table that
    charges 5, yet [chargeInsert(0, pens)] leaves [ins = -1]; its own
    assertion [assert_geq(ins, 0)] fails. *)
Theorem chargeInsert_after_canInsert_negative_ins :
  let c := one_edit_no_ins in
  let cm := Penalties.uniform 5 in
  Constraint.wf c /\ Constraint.budgets_nonneg c /\ Penalties.ok cm /\
  Constraint.instantiated c = true /\
  Constraint.canInsert c 0 cm = true /\
  Constraint.ins (Constraint.chargeInsert c 0 cm) = -1 /\
  Constraint.edits (Constraint.chargeInsert c 0 cm) = 0 /\
  Constraint.penalty (Constraint.chargeInsert c 0 cm) = 5 /\
  Constraint.chargeInsert_checked c 0 cm = None.
Proof.
  cbv zeta. split; [|split; [|split]].
  - unfold Constraint.wf, in_int, one_edit_no_ins; simpl; unfold INT_MIN, INT_MAX; lia.
  - unfold Constraint.budgets_nonneg, one_edit_no_ins; simpl. lia.
  - intros x. unfold INT_MAX; simpl. lia.
  - repeat split; reflexivity.
Qed.

(** C4.  On an instantiated constraint whose budgets are non-negative ints
    and for a table of non-negative penalties, [canMismatch(q, pens)] is true
    iff [(mms > 0 or edits > 0) and penalty >= pens.mm(q)]; when it is true,
    [chargeMismatch(q, pens)] passes all of its assertions, decrements [mms]
    if [mms > 0] and [edits] otherwise, subtracts [pens.mm(q)] from
    [penalty], leaves the three non-negative and changes no other field. *)
Theorem canMismatch_chargeMismatch_spec
    (c : Constraint.t) (q : Z) (cm : Penalties.t) :
  Constraint.wf c -> Constraint.budgets_nonneg c -> Penalties.ok cm ->
  Constraint.instantiated c = true ->
  (Constraint.canMismatch c q cm = true <->
   (0 < Constraint.mms c \/ 0 < Constraint.edits c) /\
   Penalties.mm cm q <= Constraint.penalty c) /\
  (Constraint.canMismatch c q cm = true ->
   let c' := Constraint.chargeMismatch c q cm in
   Constraint.chargeMismatch_checked c q cm = Some c' /\
   Constraint.mms c' =
     (if 0 <? Constraint.mms c then Constraint.mms c - 1 else Constraint.mms c) /\
   Constraint.edits c' =
     (if 0 <? Constraint.mms c then Constraint.edits c else Constraint.edits c - 1) /\
   Constraint.penalty c' = Constraint.penalty c - Penalties.mm cm q /\
   0 <= Constraint.mms c' /\ 0 <= Constraint.edits c' /\
   0 <= Constraint.penalty c' /\
   Constraint.ins c' = Constraint.ins c /\
   Constraint.dels c' = Constraint.dels c /\
   Constraint.editsCeil c' = Constraint.editsCeil c /\
   Constraint.mmsCeil c' = Constraint.mmsCeil c /\
   Constraint.insCeil c' = Constraint.insCeil c /\
   Constraint.delsCeil c' = Constraint.delsCeil c /\
   Constraint.penaltyCeil c' = Constraint.penaltyCeil c /\
   Constraint.penConst c' = Constraint.penConst c /\
   Constraint.penLinear c' = Constraint.penLinear c /\
   Constraint.instantiated c' = Constraint.instantiated c).
Proof.
  intros Hwf Hnn Hcm Hinst. split; [apply canMismatch_iff|].
  intros Hcan. apply canMismatch_iff in Hcan. destruct Hcan as [Hbud Hpen].
  destruct Hwf as (He & Hm & _ & _ & Hp & _).
  destruct Hnn as (He0 & Hm0 & _).
  destruct (Hcm q) as ((Hq0 & Hq1) & _).
  unfold in_int, INT_MIN, INT_MAX in *.
  assert (Hwp : wrap_int (Constraint.penalty c - Penalties.mm cm q)
                = Constraint.penalty c - Penalties.mm cm q)
    by (apply wrap_int_id; unfold in_int, INT_MIN, INT_MAX; lia).
  cbv zeta. unfold Constraint.chargeMismatch_checked, Constraint.chargeMismatch.
  rewrite Hinst. simpl.
  destruct (Constraint.mms c =? 0) eqn:Hz; bool_to_prop.
  - assert (Hlt : 0 < Constraint.edits c) by lia.
    assert (Hwe : wrap_int (Constraint.edits c - 1) = Constraint.edits c - 1)
      by (apply wrap_int_id; unfold in_int, INT_MIN, INT_MAX; lia).
    apply Z.ltb_lt in Hlt as Hltb. rewrite Hltb. simpl.
    rewrite Hwp, Hwe, Hz. simpl.
    replace (0 <=? Constraint.edits c - 1) with true by (symmetry; apply Z.leb_le; lia).
    replace (0 <=? Constraint.penalty c - Penalties.mm cm q) with true
      by (symmetry; apply Z.leb_le; lia).
    simpl. repeat split; try reflexivity; try assumption; lia.
  - assert (Hlt : 0 < Constraint.mms c) by lia.
    assert (Hwm : wrap_int (Constraint.mms c - 1) = Constraint.mms c - 1)
      by (apply wrap_int_id; unfold in_int, INT_MIN, INT_MAX; lia).
    apply Z.ltb_lt in Hlt as Hltb. simpl.
    rewrite Hwp, Hwm, Hltb.
    replace (0 <=? Constraint.mms c - 1) with true by (symmetry; apply Z.leb_le; lia).
    replace (0 <=? Constraint.edits c) with true by (symmetry; apply Z.leb_le; lia).
    replace (0 <=? Constraint.penalty c - Penalties.mm cm q) with true
      by (symmetry; apply Z.leb_le; lia).
    simpl. repeat split; try reflexivity; try assumption; lia.
Qed.

Lemma uniform_ok p : 0 <= p <= INT_MAX -> Penalties.ok (Penalties.uniform p).
Proof. intros H x. simpl. tauto. Qed.

Lemma canMismatch_chargeMismatch_spec_witness :
  Constraint.canMismatch two_mms 40 (Penalties.uniform 30) = true /\
  Constraint.chargeMismatch_checked two_mms 40 (Penalties.uniform 30) =
    Some (Constraint.mk 3 1 0 0 30 INT_MAX INT_MAX INT_MAX INT_MAX INT_MAX
            FLT_MAX FLT_MAX true).
Proof.
  assert (Hwf : Constraint.wf two_mms)
    by (unfold Constraint.wf, in_int, two_mms; simpl; unfold INT_MIN, INT_MAX; lia).
  assert (Hnn : Constraint.budgets_nonneg two_mms)
    by (unfold Constraint.budgets_nonneg, two_mms; simpl; lia).
  assert (Hcm : Penalties.ok (Penalties.uniform 30))
    by (apply uniform_ok; unfold INT_MAX; lia).
  destruct (canMismatch_chargeMismatch_spec two_mms 40 (Penalties.uniform 30)
              Hwf Hnn Hcm eq_refl) as [Hiff Hcharge].
  split; [reflexivity|].
  destruct (Hcharge eq_refl) as [Hchk _]. exact Hchk.
Defined.

(** ** Instantiation against the read length *)

Lemma truncation_of_nonneg (n : Z) (d : positive) (t : Z) :
  0 <= t -> t * Z.pos d <= n < (t + 1) * Z.pos d ->
  truncation_of (Qmake n d) t /\ truncation_of (Qopp (Qmake n d)) (- t).
Proof.
  intros Ht [Hlo Hhi]. unfold truncation_of, Qle_bool, Qle, Qlt. simpl.
  split.
  - destruct (0 * Z.pos d <=? n * 1) eqn:Hs; bool_to_prop; nia.
  - destruct (0 * Z.pos d <=? - n * 1) eqn:Hs; bool_to_prop; nia.
Qed.

Lemma truncation_of_inject (v : Z) :
  0 <= v -> truncation_of (inject_Z v) v /\ truncation_of (Qopp (inject_Z v)) (- v).
Proof. intros Hv. apply truncation_of_nonneg; lia. Qed.

Lemma f32_to_int_truncates (x : float) (z : Z) :
  f32_to_int x = Some z -> truncation_of (f32_to_Q x) z.
Proof.
  destruct x as [s | s | | s m e]; simpl; try discriminate.
  - intros [= <-]. apply (truncation_of_inject 0). lia.
  - destruct (_ && _); [|discriminate]. intros [= <-].
    assert (Hcases : forall a t,
      truncation_of a t /\ truncation_of (Qopp a) (- t) ->
      truncation_of (if s then Qopp a else a) (if s then - t else t))
      by (intros a t [H1 H2]; destruct s; assumption).
    destruct e as [| p | p]; apply Hcases.
    + apply truncation_of_inject. apply Z.shiftl_nonneg. lia.
    + apply truncation_of_inject. apply Z.shiftl_nonneg. lia.
    + rewrite Z.shiftr_div_pow2 by lia.
      assert (Hpow : Z.pos (2 ^ p) = 2 ^ Z.pos p) by apply Pos2Z.inj_pow.
      assert (Hpos : 0 < 2 ^ Z.pos p) by (apply Z.pow_pos_nonneg; lia).
      apply truncation_of_nonneg.
      * apply Z.div_pos; lia.
      * rewrite Hpow.
        pose proof (Z.mul_div_le (Z.pos m) (2 ^ Z.pos p) Hpos).
        pose proof (Z.mul_succ_div_gt (Z.pos m) (2 ^ Z.pos p) Hpos).
        lia.
Qed.

(** C6, as the code has it.  [instantiate(rdlen)] sets [instantiated] and
    changes no field but [penalty].  When [penConst] is the sentinel
    [FLT_MAX], [penalty] is left unchanged.  Otherwise [penalty] becomes
    [(int)(0.5f + penConst + penLinear * (float)rdlen)]: the single-precision
    sum truncated toward zero, a function of [penConst], [penLinear] and
    [rdlen] alone, and [instantiate] returns exactly when that conversion is
    defined. *)
Theorem instantiate_spec (c : Constraint.t) (rdlen : Z) :
  let sum := f32_add (f32_add f32_half (Constraint.penConst c))
                     (f32_mul (Constraint.penLinear c) (f32_of_Z rdlen)) in
  (f32_eqb (Constraint.penConst c) FLT_MAX = true ->
   Constraint.instantiate c rdlen = Some (Constraint.set_instantiated true c)) /\
  (f32_eqb (Constraint.penConst c) FLT_MAX = false ->
   Constraint.instantiate c rdlen =
     match f32_to_int sum with
     | Some p => Some (Constraint.set_instantiated true (Constraint.set_penalty p c))
     | None => None
     end) /\
  (forall c', Constraint.instantiate c rdlen = Some c' ->
     Constraint.instantiated c' = true /\
     (if f32_eqb (Constraint.penConst c) FLT_MAX
      then Constraint.penalty c' = Constraint.penalty c
      else Some (Constraint.penalty c') =
             Constraint.instantiate_static rdlen (Constraint.penConst c)
               (Constraint.penLinear c) /\
           truncation_of (f32_to_Q sum) (Constraint.penalty c')) /\
     Constraint.set_penalty (Constraint.penalty c)
       (Constraint.set_instantiated (Constraint.instantiated c) c') = c) /\
  (forall c2 : Constraint.t,
     f32_eqb (Constraint.penConst c) FLT_MAX = false ->
     Constraint.penConst c2 = Constraint.penConst c ->
     Constraint.penLinear c2 = Constraint.penLinear c ->
     Constraint.penalty <$> Constraint.instantiate c2 rdlen =
     Constraint.penalty <$> Constraint.instantiate c rdlen).
Proof.
  cbv zeta. unfold Constraint.instantiate, Constraint.instantiate_static.
  repeat split.
  - intros ->. reflexivity.
  - intros ->. simpl. destruct (f32_to_int _); reflexivity.
  - destruct (f32_eqb _ _); simpl in H.
    + injection H as <-. reflexivity.
    + destruct (f32_to_int _); simpl in H; [|discriminate].
      injection H as <-. reflexivity.
  - destruct (f32_eqb _ _); simpl in H.
    + injection H as <-. reflexivity.
    + destruct (f32_to_int _) eqn:Hconv; simpl in H; [|discriminate].
      injection H as <-. simpl. split; [reflexivity|].
      apply f32_to_int_truncates, Hconv.
  - destruct (f32_eqb _ _); simpl in H.
    + injection H as <-. destruct c; reflexivity.
    + destruct (f32_to_int _); simpl in H; [|discriminate].
      injection H as <-. destruct c; reflexivity.
  - intros c2 Hs Hc Hl. rewrite Hc, Hl, Hs. simpl.
    destruct (f32_to_int _); reflexivity.
Qed.

(** C6, a rounding only for some arguments.  With [penConst = -1.75],
    [penLinear = 0] and [rdlen = 0] the penalty function is [-1.75], whose
    nearest integer is [-2]; [instantiate] sets [penalty = -1]. *)
Lemma instantiate_not_a_rounding :
  Constraint.instantiated negative_function = false /\
  Constraint.penalty <$> Constraint.instantiate negative_function 0 = Some (-1) /\
  ~ Constraint.instantiate_rounds negative_function 0.
Proof.
  split; [reflexivity|]. split; [vm_compute; reflexivity|].
  intros H. destruct (H eq_refl) as (c' & Hc' & Hnear).
  vm_compute in Hc'. injection Hc' as <-.
  vm_compute in Hnear. apply Hnear. reflexivity.
Qed.

(** With [penConst = 3], [penLinear = 0.5] and [rdlen = 5] the penalty
    function is [5.5] and the new penalty is [6]. *)
Example instantiate_linear_function :
  Constraint.penalty <$> Constraint.instantiate linear_function 5 = Some 6 /\
  Constraint.instantiate_rounds linear_function 5.
Proof.
  split; [vm_compute; reflexivity|]. intros _. eexists.
  split; [vm_compute; reflexivity|]. vm_compute. discriminate.
Qed.

(** ** Seed policies *)

(** C5.  [mmSeeds(mms, len, pols, oall)] returns what the zero-, one- or
    two-mismatch builder leaves behind when [mms] is 0, 1 or 2, and throws
    for every other [mms]; it returns normally exactly when [mms] is 0, 1
    or 2. *)
Theorem mmSeeds_dispatch
    (zeroMmSeeds oneMmSeeds twoMmSeeds :
       Z -> list Seed.t -> Constraint.t -> list Seed.t * Constraint.t)
    (mms ln : Z) (pols : list Seed.t) (oall : Constraint.t) :
  Seed.mmSeeds zeroMmSeeds oneMmSeeds twoMmSeeds mms ln pols oall =
    match mms with
    | 0 => Returns (zeroMmSeeds ln pols oall)
    | 1 => Returns (oneMmSeeds ln pols oall)
    | 2 => Returns (twoMmSeeds ln pols oall)
    | _ => Throws 1
    end /\
  ((exists r, Seed.mmSeeds zeroMmSeeds oneMmSeeds twoMmSeeds mms ln pols oall
              = Returns r) <->
   mms = 0 \/ mms = 1 \/ mms = 2).
Proof.
  unfold Seed.mmSeeds. split.
  - destruct mms as [| p | p]; [reflexivity | | reflexivity].
    destruct p as [[p | p |] | [p | p |] |]; reflexivity.
  - destruct (mms =? 0) eqn:H0; [bool_to_prop; split; eauto|].
    destruct (mms =? 1) eqn:H1; [bool_to_prop; split; eauto|].
    destruct (mms =? 2) eqn:H2; [bool_to_prop; split; eauto|].
    bool_to_prop. split.
    + intros [r Hr]. discriminate.
    + lia.
Qed.

(** ** Search metrics *)

Lemma metrics_eq (a b : SeedSearchMetrics.t) :
  SeedSearchMetrics.seedsearch a = SeedSearchMetrics.seedsearch b ->
  SeedSearchMetrics.possearch a = SeedSearchMetrics.possearch b ->
  SeedSearchMetrics.intrahit a = SeedSearchMetrics.intrahit b ->
  SeedSearchMetrics.interhit a = SeedSearchMetrics.interhit b ->
  SeedSearchMetrics.filteredseed a = SeedSearchMetrics.filteredseed b ->
  SeedSearchMetrics.ooms a = SeedSearchMetrics.ooms b ->
  SeedSearchMetrics.bwops a = SeedSearchMetrics.bwops b ->
  SeedSearchMetrics.bweds a = SeedSearchMetrics.bweds b ->
  a = b.
Proof. destruct a, b; simpl; intros; subst; reflexivity. Qed.

Lemma merge_comm (a b : SeedSearchMetrics.t) (g g' : bool) :
  SeedSearchMetrics.merge a b g = SeedSearchMetrics.merge b a g'.
Proof. apply metrics_eq; simpl; f_equal; lia. Qed.

Lemma merge_assoc (a b c : SeedSearchMetrics.t) (g1 g2 g3 g4 : bool) :
  SeedSearchMetrics.merge (SeedSearchMetrics.merge a b g1) c g2 =
  SeedSearchMetrics.merge a (SeedSearchMetrics.merge b c g3) g4.
Proof.
  apply metrics_eq; simpl;
    rewrite wrap_u64_add_l, wrap_u64_add_r; f_equal; lia.
Qed.

Lemma merge_reset (a m : SeedSearchMetrics.t) (g : bool) :
  SeedSearchMetrics.wf m ->
  SeedSearchMetrics.merge (SeedSearchMetrics.reset a) m g = m.
Proof.
  intros (H1 & H2 & H3 & H4 & H5 & H6 & H7 & H8).
  apply metrics_eq; simpl; apply wrap_u64_id; assumption.
Qed.

(** C8.  [merge(m)] sets each of the eight counters to its previous value
    plus the counter of [m], in 64-bit unsigned arithmetic (so exactly the
    sum when the sum fits); merging into a freshly reset object copies the
    counters of [m]; [merge] is commutative and associative. *)
Theorem merge_spec (a b c : SeedSearchMetrics.t) (g : bool) :
  SeedSearchMetrics.wf b ->
  SeedSearchMetrics.merge a b g =
    SeedSearchMetrics.mk
      (wrap_u64 (SeedSearchMetrics.seedsearch a + SeedSearchMetrics.seedsearch b))
      (wrap_u64 (SeedSearchMetrics.possearch a + SeedSearchMetrics.possearch b))
      (wrap_u64 (SeedSearchMetrics.intrahit a + SeedSearchMetrics.intrahit b))
      (wrap_u64 (SeedSearchMetrics.interhit a + SeedSearchMetrics.interhit b))
      (wrap_u64 (SeedSearchMetrics.filteredseed a + SeedSearchMetrics.filteredseed b))
      (wrap_u64 (SeedSearchMetrics.ooms a + SeedSearchMetrics.ooms b))
      (wrap_u64 (SeedSearchMetrics.bwops a + SeedSearchMetrics.bwops b))
      (wrap_u64 (SeedSearchMetrics.bweds a + SeedSearchMetrics.bweds b)) /\
  (SeedSearchMetrics.sums_fit a b ->
   SeedSearchMetrics.merge a b g =
     SeedSearchMetrics.mk
       (SeedSearchMetrics.seedsearch a + SeedSearchMetrics.seedsearch b)
       (SeedSearchMetrics.possearch a + SeedSearchMetrics.possearch b)
       (SeedSearchMetrics.intrahit a + SeedSearchMetrics.intrahit b)
       (SeedSearchMetrics.interhit a + SeedSearchMetrics.interhit b)
       (SeedSearchMetrics.filteredseed a + SeedSearchMetrics.filteredseed b)
       (SeedSearchMetrics.ooms a + SeedSearchMetrics.ooms b)
       (SeedSearchMetrics.bwops a + SeedSearchMetrics.bwops b)
       (SeedSearchMetrics.bweds a + SeedSearchMetrics.bweds b)) /\
  SeedSearchMetrics.merge (SeedSearchMetrics.reset a) b g = b /\
  SeedSearchMetrics.merge a b g = SeedSearchMetrics.merge b a g /\
  SeedSearchMetrics.merge (SeedSearchMetrics.merge a b g) c g =
    SeedSearchMetrics.merge a (SeedSearchMetrics.merge b c g) g.
Proof.
  intros Hb. split; [reflexivity|]. split; [|split; [|split]].
  - intros (H1 & H2 & H3 & H4 & H5 & H6 & H7 & H8).
    apply metrics_eq; simpl; apply wrap_u64_id; assumption.
  - apply merge_reset, Hb.
  - apply merge_comm.
  - apply merge_assoc.
Qed.

Lemma merge_spec_witness :
  SeedSearchMetrics.wf metrics_b /\
  SeedSearchMetrics.merge metrics_a metrics_b false =
    SeedSearchMetrics.mk 11 22 33 44 55 66 77 1 /\
  SeedSearchMetrics.merge (SeedSearchMetrics.reset metrics_a) metrics_b false =
    metrics_b.
Proof.
  assert (Hb : SeedSearchMetrics.wf metrics_b)
    by (unfold SeedSearchMetrics.wf, in_u64, metrics_b; simpl; lia).
  destruct (merge_spec metrics_a metrics_b metrics_a false Hb)
    as (Hm & _ & Hr & _).
  split; [exact Hb|]. split; [rewrite Hm; reflexivity | exact Hr].
Defined.

(** ** Seed results: adding hits *)

Section SeedResultsFacts.

Context {E : Externals}.

Import SeedResults SeedResultsSpec.

Lemma fill_prefix {A : Type} (d : A) (l : list A) (k : nat) :
  (k <= length l)%nat ->
  fold_left (fun l i => <[i := d]> l) (seq 0 k) l = replicate k d ++ drop k l.
Proof.
  induction k as [|k IH]; intros Hk; [reflexivity|].
  rewrite seq_S, fold_left_app, IH by lia. simpl.
  destruct (lookup_lt_is_Some_2 l k ltac:(lia)) as [x Hx].
  rewrite (drop_S l x k Hx).
  rewrite insert_app_r_alt by (rewrite length_replicate; lia).
  rewrite length_replicate, Nat.sub_diag. simpl.
  rewrite cons_middle, app_assoc, <- replicate_S_end. reflexivity.
Qed.

Lemma fill_all {A : Type} (d : A) (l : list A) (n : nat) :
  length l = n -> fill n d l = replicate n d.
Proof.
  intros Hn. unfold fill. rewrite fill_prefix by lia.
  rewrite drop_ge by lia. apply app_nil_r.
Qed.

Lemma length_resize {A : Type} (n : nat) (d : A) (l : list A) :
  length (resize n d l) = n.
Proof. unfold resize. rewrite length_app, length_take, length_replicate. lia. Qed.

Lemma fill_resize {A : Type} (d d' : A) (l : list A) (n : nat) :
  fill n d (resize n d' l) = replicate n d.
Proof. apply fill_all, length_resize. Qed.


Lemma sum_over_replicate (w : QVal -> Z) (n : nat) (d : QVal) :
  sum_over w (replicate n d) = Z.of_nat n * w d.
Proof. induction n as [|n IH]; [reflexivity|]. simpl replicate. simpl sum_over. lia. Qed.

Lemma sum_over_insert (w : QVal -> Z) (l : list QVal) (i : nat) (old q : QVal) :
  l !! i = Some old ->
  sum_over w (<[i := q]> l) = sum_over w l - w old + w q.
Proof.
  revert i. induction l as [|x l IH]; intros [|i] Hi; simpl in *; try discriminate.
  - injection Hi as ->. lia.
  - rewrite (IH i Hi). lia.
Qed.

Lemma sum_over_le (w1 w2 : QVal -> Z) (l : list QVal) :
  Forall (fun q => w1 q <= w2 q) l -> sum_over w1 l <= sum_over w2 l.
Proof. induction 1; simpl; lia. Qed.

Lemma sum_over_bounds (w : QVal -> Z) (B : Z) (l : list QVal) :
  Forall (fun q => 0 <= w q <= B) l ->
  0 <= sum_over w l <= Z.of_nat (length l) * B.
Proof. induction 1; simpl length; simpl sum_over; lia. Qed.

Lemma bucket_ok_weights (q : QVal) :
  bucket_ok q ->
  0 <= w_nonz q <= 1 /\ w_nonz q <= w_ranges q /\ w_ranges q <= w_elts q /\
  0 <= w_ranges q <= UINT32_MAX /\ 0 <= w_elts q <= UINT32_MAX.
Proof.
  unfold bucket_ok, w_nonz, w_ranges, w_elts, UINT32_MAX. intros Hok.
  destruct (qv_valid q); simpl; [|lia].
  specialize (Hok eq_refl). unfold UINT32_MAX in Hok.
  destruct (0 <? qv_numRanges q) eqn:Hr; bool_to_prop; lia.
Qed.

Lemma buckets_ok_sums (l : list QVal) :
  Forall bucket_ok l ->
  0 <= sum_over w_nonz l <= Z.of_nat (length l) /\
  sum_over w_nonz l <= sum_over w_ranges l /\
  sum_over w_ranges l <= sum_over w_elts l /\
  0 <= sum_over w_ranges l <= Z.of_nat (length l) * UINT32_MAX /\
  0 <= sum_over w_elts l <= Z.of_nat (length l) * UINT32_MAX.
Proof.
  intros Hok.
  assert (H1 : Forall (fun q => 0 <= w_nonz q <= 1) l)
    by (eapply Forall_impl; [exact Hok | intros q Hq; apply bucket_ok_weights, Hq]).
  assert (H2 : Forall (fun q => w_nonz q <= w_ranges q) l)
    by (eapply Forall_impl; [exact Hok | intros q Hq; apply bucket_ok_weights, Hq]).
  assert (H3 : Forall (fun q => w_ranges q <= w_elts q) l)
    by (eapply Forall_impl; [exact Hok | intros q Hq; apply bucket_ok_weights, Hq]).
  assert (H4 : Forall (fun q => 0 <= w_ranges q <= UINT32_MAX) l)
    by (eapply Forall_impl; [exact Hok | intros q Hq; apply bucket_ok_weights, Hq]).
  assert (H5 : Forall (fun q => 0 <= w_elts q <= UINT32_MAX) l)
    by (eapply Forall_impl; [exact Hok | intros q Hq; apply bucket_ok_weights, Hq]).
  pose proof (sum_over_bounds _ _ _ H1). pose proof (sum_over_le _ _ _ H2).
  pose proof (sum_over_le _ _ _ H3). pose proof (sum_over_bounds _ _ _ H4).
  pose proof (sum_over_bounds _ _ _ H5). lia.
Qed.

(** The invariant gives what [repOk] asserts about the counters. *)
Lemma inv_counters_consistent (s : SeedResults.t E) :
  inv s -> counters_consistent s.
Proof.
  intros H. destruct H.
  pose proof (buckets_ok_sums _ inv_okFw0).
  pose proof (buckets_ok_sums _ inv_okRc0).
  unfold counters_consistent, nonz_buckets. lia.
Qed.


Context {L : ExternalsLaws E}.

Lemma bucket_ok_reset : bucket_ok qv_reset.
Proof. unfold bucket_ok. rewrite qv_reset_invalid. discriminate. Qed.

Lemma bucket_ok_repOk (q : QVal) (ac : AlignmentCache) :
  qv_repOk q ac = true -> bucket_ok q.
Proof. intros H _. eapply qv_repOk_counts, H. Qed.

Lemma weights_unset (q : QVal) :
  qv_valid q = false -> w_nonz q = 0 /\ w_ranges q = 0 /\ w_elts q = 0.
Proof. unfold w_nonz, w_ranges, w_elts. intros ->. auto. Qed.

Lemma weights_repOk (q : QVal) (ac : AlignmentCache) :
  qv_repOk q ac = true ->
  w_nonz q = (if 0 <? qv_numRanges q then 1 else 0) /\
  w_ranges q = qv_numRanges q /\ w_elts q = qv_numElts q.
Proof.
  intros H. unfold w_nonz, w_ranges, w_elts.
  rewrite (qv_repOk_valid _ _ H). auto.
Qed.

(** [reset] establishes the invariant. *)
Lemma reset_inv (s : SeedResults.t E) (read : Read) (offs : list Z) (n : nat) :
  (0 < n)%nat -> Z.of_nat n <= MAX_OFFS -> inv (reset s read offs n).
Proof.
  intros Hpos Hn.
  destruct (weights_unset qv_reset qv_reset_invalid) as (W1 & W2 & W3).
  constructor; simpl; rewrite ?fill_resize, ?length_replicate,
    ?sum_over_replicate, ?W1, ?W2, ?W3; try lia.
  - apply Forall_replicate, bucket_ok_reset.
  - apply Forall_replicate, bucket_ok_reset.
Qed.


(** Writing a QVal that is valid with respect to a cache into a bucket that
    is not set adds its counts to the three sums. *)
Lemma sums_after_store (l : list QVal) (i : nat) (old qv : QVal)
    (ac : AlignmentCache) :
  Forall bucket_ok l -> l !! i = Some old -> qv_valid old = false ->
  qv_repOk qv ac = true ->
  Forall bucket_ok (<[i := qv]> l) /\
  sum_over w_elts (<[i := qv]> l) = sum_over w_elts l + qv_numElts qv /\
  sum_over w_ranges (<[i := qv]> l) = sum_over w_ranges l + qv_numRanges qv /\
  sum_over w_nonz (<[i := qv]> l) =
    sum_over w_nonz l + (if 0 <? qv_numRanges qv then 1 else 0).
Proof.
  intros Hok Hold Hunset Hrep.
  destruct (weights_unset old Hunset) as (O1 & O2 & O3).
  destruct (weights_repOk qv ac Hrep) as (N1 & N2 & N3).
  split; [apply Forall_insert; [exact Hok | eapply bucket_ok_repOk, Hrep]|].
  rewrite !(sum_over_insert _ l i old qv Hold). lia.
Qed.

Lemma sums_fit_u64 (l : list QVal) :
  Forall bucket_ok l -> Z.of_nat (length l) <= MAX_OFFS ->
  0 <= sum_over w_nonz l <= 2147483648 /\
  0 <= sum_over w_ranges l <= 9223372034707292160 /\
  0 <= sum_over w_elts l <= 9223372034707292160.
Proof.
  intros Hok Hlen. pose proof (buckets_ok_sums l Hok) as H.
  unfold MAX_OFFS, UINT32_MAX in *. nia.
Qed.

(** [add] maintains the invariant when its assertions on the arguments
    hold. *)
Lemma add_inv (s : SeedResults.t E) (qv : QVal) (ac : AlignmentCache)
    (idx : nat) (fw : bool) (len : Z) :
  inv s -> add_pre s qv ac idx fw = true -> inv (add s qv ac idx fw len).
Proof.
  intros Hinv Hpre. unfold add_pre in Hpre.
  apply andb_prop in Hpre as [Hpre Hbk]. apply andb_prop in Hpre as [Hpre _].
  apply andb_prop in Hpre as [Hrep _].
  unfold add. destruct (qv_empty qv) eqn:Hemp; [exact Hinv|].
  simpl in Hbk. destruct (bucket s fw idx) as [old|] eqn:Hold; [|discriminate].
  apply negb_true_iff in Hbk. destruct Hinv.
  pose proof (sums_fit_u64 _ inv_okFw0 ltac:(lia)) as BFw.
  pose proof (sums_fit_u64 _ inv_okRc0 ltac:(lia)) as BRc.
  destruct fw; simpl in Hold.
  - destruct (sums_after_store _ _ _ _ _ inv_okFw0 Hold Hbk Hrep)
      as (Hok' & He & Hr & Hn).
    pose proof (sums_fit_u64 _ Hok' ltac:(rewrite length_insert; lia)) as BFw'.
    rewrite He, Hr, Hn in BFw'.
    destruct (0 <? qv_numRanges qv) eqn:Hpos; constructor; simpl;
      rewrite ?length_insert, ?He, ?Hr, ?Hn;
      rewrite ?wrap_u64_id by (unfold in_u64; lia);
      try assumption; try lia;
      rewrite ?wrap_u64_id by (unfold in_u64; lia); lia.
  - destruct (sums_after_store _ _ _ _ _ inv_okRc0 Hold Hbk Hrep)
      as (Hok' & He & Hr & Hn).
    pose proof (sums_fit_u64 _ Hok' ltac:(rewrite length_insert; lia)) as BRc'.
    rewrite He, Hr, Hn in BRc'.
    destruct (0 <? qv_numRanges qv) eqn:Hpos; constructor; simpl;
      rewrite ?length_insert, ?He, ?Hr, ?Hn;
      rewrite ?wrap_u64_id by (unfold in_u64; lia);
      try assumption; try lia;
      rewrite ?wrap_u64_id by (unfold in_u64; lia); lia.
Qed.


Lemma step_inv (s s' : SeedResults.t E) (o : SeedResults.op E) :
  (match o with Reset _ _ n => Z.of_nat n <= MAX_OFFS | _ => True end) ->
  (match o with Reset _ _ _ => True | _ => inv s end) ->
  step s o = Some s' -> inv s'.
Proof.
  destruct o as [read offs n | qv ac idx fw len]; simpl; intros Hsmall Hinv.
  - unfold reset_checked. destruct (0 <? n)%nat eqn:Hn; simpl; [|discriminate].
    intros [= <-]. apply reset_inv; [apply Nat.ltb_lt, Hn | exact Hsmall].
  - destruct (add_pre s qv ac idx fw) eqn:Hpre; simpl; [|discriminate].
    intros [= <-]. apply add_inv; assumption.
Qed.

Lemma run_inv (ops : list (SeedResults.op E)) (s s' : SeedResults.t E) :
  inv s -> small_resets ops -> run s ops = Some s' -> inv s'.
Proof.
  revert s. induction ops as [|o ops IH]; intros s Hinv Hsmall; simpl.
  - intros [= <-]. exact Hinv.
  - destruct (step s o) as [s1|] eqn:Hstep; simpl; [|discriminate].
    apply Forall_cons in Hsmall as [Ho Hops].
    apply IH; [|exact Hops].
    apply (step_inv s s1 o); [destruct o; auto | destruct o; auto | exact Hstep].
Qed.

(** Without a cache, the inner loop of [repOk] counts the non-zero buckets. *)
Lemma repOk_scan_counts (pre l : list QVal) (acc : Z) :
  fold_left (fun acc i =>
               nonzs ← acc;
               q ← (pre ++ l) !! i;
               if qv_valid q then
                 Some (if 0 <? qv_numRanges q then nonzs + 1 else nonzs)
               else Some nonzs)
            (seq (length pre) (length l)) (Some acc)
  = Some (acc + sum_over w_nonz l).
Proof.
  revert pre acc. induction l as [|q l IH]; intros pre acc; simpl.
  - f_equal. lia.
  - rewrite lookup_app_r, Nat.sub_diag by lia. simpl.
    replace (pre ++ q :: l) with ((pre ++ [q]) ++ l) by (rewrite <- app_assoc; reflexivity).
    replace (S (length pre)) with (length (pre ++ [q])) by (rewrite length_app; simpl; lia).
    destruct (qv_valid q) eqn:Hv; simpl;
      [destruct (0 <? qv_numRanges q) eqn:Hr|];
      rewrite IH; unfold w_nonz at 2; rewrite Hv, ?Hr; simpl; f_equal; lia.
Qed.

Lemma repOk_scan_None (rrs : list QVal) (acc : Z) :
  repOk_scan None rrs (length rrs) acc = Some (acc + sum_over w_nonz rrs).
Proof. apply (repOk_scan_counts [] rrs acc). Qed.

(** The invariant makes every assertion of [repOk] hold. *)
Lemma inv_repOk (s : SeedResults.t E) :
  inv s -> repOk_checked s None false = Some true.
Proof.
  intros Hinv. pose proof (inv_counters_consistent s Hinv) as (Hc1 & Hc2 & Hc3 & _).
  destruct Hinv. unfold repOk_checked. simpl.
  destruct (read_ s); [|reflexivity].
  replace (0 <? numOffs_ s)%nat with true by (symmetry; apply Nat.ltb_lt; lia).
  rewrite inv_lenFw0, inv_lenRc0, Nat.eqb_refl. simpl.
  replace (numRanges_ s <=? numElts_ s) with true by (symmetry; apply Z.leb_le; lia).
  replace (nonzTot_ s <=? numRanges_ s) with true by (symmetry; apply Z.leb_le; lia).
  simpl. rewrite <- inv_lenRc0 at 1. rewrite repOk_scan_None. simpl.
  rewrite <- inv_lenFw0 at 1. rewrite repOk_scan_None. simpl.
  replace (0 + sum_over w_nonz (hitsRc_ s) + sum_over w_nonz (hitsFw_ s) =? nonzTot_ s)
    with true by (symmetry; apply Z.eqb_eq; unfold nonz_buckets in Hc1; lia).
  reflexivity.
Qed.


(** C10.  From any state, a sequence of calls that starts with [reset] and
    whose calls of [reset] and [add] pass the assertions on their arguments
    ends in a state where [nonzTot_] is the number of buckets holding a valid
    QVal with [numRanges > 0], [nonzTot_ <= numRanges_ <= numElts_], and the
    counters of the two orientations add up to the totals; every assertion of
    [repOk] holds there.  No [reset] asks for more than [2^31] offsets, so
    that no 64-bit counter wraps around. *)
Theorem reset_add_preserve_counters
    (s0 s : SeedResults.t E) (read : Read) (offs : list Z) (n : nat)
    (ops : list (SeedResults.op E)) :
  small_resets (Reset read offs n :: ops) ->
  run s0 (Reset read offs n :: ops) = Some s ->
  counters_consistent s /\ repOk_checked s None false = Some true.
Proof.
  intros Hsmall Hrun. simpl in Hrun.
  destruct (reset_checked s0 read offs n) as [s1|] eqn:Hreset; simpl in Hrun;
    [|discriminate].
  apply Forall_cons in Hsmall as [Hn Hsmall].
  assert (Hinv1 : inv s1)
    by (apply (step_inv s0 s1 (Reset read offs n)); [exact Hn | exact I | exact Hreset]).
  pose proof (run_inv ops s1 s Hinv1 Hsmall Hrun) as Hinv.
  split; [apply inv_counters_consistent | apply inv_repOk]; exact Hinv.
Qed.

(** C9.  [add] of an empty QVal leaves the seed results unchanged: the
    release build returns the state it was given, and so does the build with
    assertions whenever its assertions hold. *)
Theorem add_empty_unchanged (s : SeedResults.t E) (qv : QVal)
    (ac : AlignmentCache) (seedIdx : nat) (seedFw : bool) (seedLen : Z) :
  qv_empty qv = true ->
  add s qv ac seedIdx seedFw seedLen = s /\
  (forall s', add_checked s qv ac seedIdx seedFw seedLen = Some s' -> s' = s).
Proof.
  intros Hemp. unfold add_checked, add. rewrite Hemp. split; [reflexivity|].
  intros s'.
  destruct (qv_repOk qv ac); simpl; [|discriminate].
  destruct (repOk_checked s (Some ac) false); simpl; [|discriminate].
  destruct (seedIdx <? length (hitsFw_ s))%nat; simpl; [|discriminate].
  destruct (0 <? numOffs_ s)%nat; simpl; [|discriminate].
  congruence.
Qed.

(** C7, for a QVal that is not empty.  When the assertions of [add] on its
    arguments hold and [qv] is not empty, [add] stores [qv] in the bucket
    [seedIdx] of the orientation [seedFw] and in no other bucket, adds
    [qv.numElts()] and [qv.numRanges()] to the total counters and to the
    counters of that orientation (in 64-bit unsigned arithmetic), and
    increments the non-zero counts when [qv.numRanges() > 0]; the counters
    of the other orientation are unchanged. *)
Theorem add_stores_and_counts (s : SeedResults.t E) (qv : QVal)
    (ac : AlignmentCache) (seedIdx : nat) (seedFw : bool) (seedLen : Z) :
  add_pre s qv ac seedIdx seedFw = true ->
  qv_empty qv = false ->
  let s' := add s qv ac seedIdx seedFw seedLen in
  let one := if 0 <? qv_numRanges qv then 1 else 0 in
  let bump (b : bool) (old delta : Z) :=
    if b then (if delta =? 0 then old else wrap_u64 (old + delta)) else old in
  bucket s' seedFw seedIdx = Some qv /\
  (forall fw i, (fw, i) <> (seedFw, seedIdx) -> bucket s' fw i = bucket s fw i) /\
  numElts_ s' = wrap_u64 (numElts_ s + qv_numElts qv) /\
  numRanges_ s' = wrap_u64 (numRanges_ s + qv_numRanges qv) /\
  nonzTot_ s' = bump true (nonzTot_ s) one /\
  numEltsFw_ s' =
    (if seedFw then wrap_u64 (numEltsFw_ s + qv_numElts qv) else numEltsFw_ s) /\
  numRangesFw_ s' =
    (if seedFw then wrap_u64 (numRangesFw_ s + qv_numRanges qv) else numRangesFw_ s) /\
  nonzFw_ s' = bump seedFw (nonzFw_ s) one /\
  numEltsRc_ s' =
    (if seedFw then numEltsRc_ s else wrap_u64 (numEltsRc_ s + qv_numElts qv)) /\
  numRangesRc_ s' =
    (if seedFw then numRangesRc_ s else wrap_u64 (numRangesRc_ s + qv_numRanges qv)) /\
  nonzRc_ s' = bump (negb seedFw) (nonzRc_ s) one.
Proof.
  intros Hpre Hemp. unfold add_pre in Hpre.
  apply andb_prop in Hpre as [_ Hbk]. rewrite Hemp in Hbk. simpl in Hbk.
  destruct (bucket s seedFw seedIdx) as [old|] eqn:Hold; [|discriminate].
  assert (Hlt : (seedIdx < length (if seedFw then hitsFw_ s else hitsRc_ s))%nat)
    by (apply lookup_lt_is_Some; destruct seedFw; simpl in Hold; eauto).
  cbv zeta. unfold add. rewrite Hemp.
  destruct seedFw, (0 <? qv_numRanges qv); simpl;
    (split; [apply list_lookup_insert_eq, Hlt|]);
    (split; [intros [] i Hne; simpl; try reflexivity;
             apply list_lookup_insert_ne; congruence|]);
    repeat split; reflexivity.
Qed.

End SeedResultsFacts.

#[export] Instance concrete_laws : ExternalsLaws ConcreteCache.externals.
Proof.
  split.
  - reflexivity.
  - intros q ac H. simpl in *. unfold ConcreteCache.repOk in H.
    repeat (apply andb_prop in H as [H ?]). exact H.
  - intros q ac H. simpl in *. unfold ConcreteCache.repOk in H.
    repeat (apply andb_prop in H as [H ?]).
    match goal with Hge : (_ >=? _) = true |- _ => apply Z.geb_le in Hge end.
    bool_to_prop. lia.
Qed.

Lemma reset_add_preserve_counters_witness :
  SeedResults.run constructed three_offsets_ops = Some three_offsets_added /\
  SeedResultsSpec.counters_consistent three_offsets_added /\
  SeedResults.nonzTot_ three_offsets_added = 4 /\
  SeedResults.numElts_ three_offsets_added = 14.
Proof.
  assert (Hrun : SeedResults.run constructed
                   (SeedResults.Reset (E := ConcreteCache.externals) tt [0; 10; 20] 3
                      :: tail three_offsets_ops)
                 = Some three_offsets_added)
    by (vm_compute; reflexivity).
  assert (Hsmall : SeedResultsSpec.small_resets
                     (SeedResults.Reset (E := ConcreteCache.externals) tt [0; 10; 20] 3
                      :: tail three_offsets_ops))
    by (repeat constructor; unfold SeedResultsSpec.MAX_OFFS; simpl; lia).
  destruct (reset_add_preserve_counters (L := concrete_laws) constructed
              three_offsets_added tt [0; 10; 20] 3%nat (tail three_offsets_ops)
              Hsmall Hrun) as [Hc _].
  split; [exact Hrun|]. split; [exact Hc|]. split; vm_compute; reflexivity.
Defined.

Lemma add_empty_unchanged_witness :
  qv_empty no_range = true /\
  SeedResults.add one_offset no_range tt 0 true 20 = one_offset.
Proof.
  assert (Hemp : qv_empty no_range = true) by (vm_compute; reflexivity).
  split; [exact Hemp|].
  destruct (add_empty_unchanged one_offset no_range tt 0%nat true 20 Hemp)
    as [Hadd _].
  exact Hadd.
Defined.

Lemma add_stores_and_counts_witness :
  SeedResults.add_pre one_offset (one_range 5) tt 0 true = true /\
  qv_empty (one_range 5) = false /\
  SeedResults.bucket (SeedResults.add one_offset (one_range 5) tt 0 true 20) true 0
    = Some (one_range 5) /\
  SeedResults.numElts_ (SeedResults.add one_offset (one_range 5) tt 0 true 20)
    = wrap_u64 (0 + 5).
Proof.
  assert (Hpre : SeedResults.add_pre one_offset (one_range 5) tt 0 true = true)
    by (vm_compute; reflexivity).
  assert (Hemp : qv_empty (one_range 5) = false) by (vm_compute; reflexivity).
  split; [exact Hpre|]. split; [exact Hemp|].
  destruct (add_stores_and_counts one_offset (one_range 5) tt 0%nat true 20
              Hpre Hemp) as (Hb & _ & He & _).
  split; [exact Hb | exact He].
Defined.

(** C7 fails for an empty QVal.  After [reset] with one offset, [add] of the
    valid QVal without any range passes every assertion and returns at once:
    the forward bucket 0 still holds the reset QVal, not [qv]. *)
Lemma add_empty_qval_not_stored :
  let s := one_offset in
  let qv := no_range in
  (0 < SeedResults.numOffs_ s)%nat /\
  qv_valid qv = true /\ qv_repOk qv tt = true /\
  SeedResults.add_pre s qv tt 0 true = true /\
  SeedResults.add_checked s qv tt 0 true 20 = Some (SeedResults.add s qv tt 0 true 20) /\
  SeedResults.bucket (SeedResults.add s qv tt 0 true 20) true 0 = Some qv_reset /\
  SeedResults.bucket (SeedResults.add s qv tt 0 true 20) true 0 <> Some qv.
Proof.
  cbv zeta.
  split; [unfold one_offset; simpl; lia|].
  do 5 (split; [vm_compute; reflexivity|]).
  vm_compute. discriminate.
Qed.

(** ** Seed results: ranking *)

Section SortFacts.

Context {E : Externals}.

Import SeedResults SeedResultsSpec.

Lemma fold_left_fmap {A B C : Type} (f : A -> B -> A) (g : C -> B)
    (l : list C) (a : A) :
  fold_left f (g <$> l) a = fold_left (fun a x => f a (g x)) l a.
Proof. revert a. induction l as [|x l IH]; intros a; simpl; [reflexivity | apply IH]. Qed.

(** The two nested loops visit the buckets in the order of [all_buckets]. *)
Lemma sort_scan_flat (s : SeedResults.t E) :
  sort_scan s =
  fold_left (visit s) (all_buckets (numOffs_ s)) (UINT32_MAX, 0%nat, true).
Proof.
  unfold sort_scan, all_buckets. rewrite fold_left_app, !fold_left_fmap.
  reflexivity.
Qed.

Lemma visit_eq (s : SeedResults.t E) (m : Z) (i : nat) (f : bool) (b : bucket_id) :
  visit s (m, i, f) b =
  if eligible s b && (elts_at s b <? m) then (elts_at s b, b.2, b.1)
  else (m, i, f).
Proof.
  destruct b as [fw j]. unfold visit, eligible, elts_at, flag, bucket, sort_visit.
  simpl. destruct fw;
    [destruct (hitsFw_ s !! j), (sortedFw_ s !! j)
    |destruct (hitsRc_ s !! j), (sortedRc_ s !! j)]; simpl; reflexivity.
Qed.

(** What a scan of the buckets [L] computes from the running minimum [m0]:
    either no eligible bucket is below [m0] and the minimum is unchanged, or
    the result is the first bucket of [L] with the fewest elements among the
    eligible ones. *)
Lemma fold_visit_spec (s : SeedResults.t E) (L : list bucket_id)
    (m0 : Z) (i0 : nat) (f0 : bool) :
  (fold_left (visit s) L (m0, i0, f0) = (m0, i0, f0) /\
   forall c, c ∈ L -> eligible s c = true -> m0 <= elts_at s c) \/
  (exists L1 b L2,
     L = L1 ++ b :: L2 /\
     fold_left (visit s) L (m0, i0, f0) = (elts_at s b, b.2, b.1) /\
     eligible s b = true /\ elts_at s b < m0 /\
     (forall c, c ∈ L1 -> eligible s c = true -> elts_at s b < elts_at s c) /\
     (forall c, c ∈ L2 -> eligible s c = true -> elts_at s b <= elts_at s c)).
Proof.
  revert m0 i0 f0. induction L as [|a L IH]; intros m0 i0 f0; cbn [fold_left].
  - left. split; [reflexivity|]. intros c Hc. inversion Hc.
  - rewrite visit_eq.
    destruct (eligible s a && (elts_at s a <? m0)) eqn:Ha.
    + apply andb_prop in Ha as [Hel Hlt]. apply Z.ltb_lt in Hlt.
      right. destruct (IH (elts_at s a) a.2 a.1) as [[Heq Hmin] | Hex].
      * exists [], a, L. rewrite Heq. repeat split; auto.
        intros c Hc. inversion Hc.
      * destruct Hex as (L1 & b & L2 & -> & Hr & Hb & Hlt' & H1 & H2).
        exists (a :: L1), b, L2. rewrite Hr. repeat split; auto; [lia|].
        intros c Hc Hec. apply elem_of_cons in Hc as [-> | Hc]; [lia | auto].
    + destruct (IH m0 i0 f0) as [[Heq Hmin] | Hex].
      * left. split; [exact Heq|].
        intros c Hc Hec. apply elem_of_cons in Hc as [-> | Hc]; [|auto].
        rewrite Hec in Ha. simpl in Ha. apply Z.ltb_ge in Ha. exact Ha.
      * destruct Hex as (L1 & b & L2 & -> & Hr & Hb & Hlt' & H1 & H2).
        right. exists (a :: L1), b, L2. rewrite Hr. repeat split; auto.
        intros c Hc Hec. apply elem_of_cons in Hc as [-> | Hc]; [|auto].
        rewrite Hec in Ha. simpl in Ha. apply Z.ltb_ge in Ha. lia.
Qed.


(** *** The scan order *)

Lemma elem_of_all_buckets (n : nat) (b : bucket_id) :
  b ∈ all_buckets n <-> (b.2 < n)%nat.
Proof.
  unfold all_buckets. rewrite elem_of_app, !list_elem_of_fmap.
  split.
  - intros [(i & -> & Hi) | (i & -> & Hi)]; apply elem_of_seq in Hi; simpl; lia.
  - intros Hlt. destruct b as [[] i]; simpl in Hlt; [right | left];
      exists i; (split; [reflexivity | apply elem_of_seq; lia]).
Qed.

Lemma seq_sorted (j n : nat) : StronglySorted Nat.lt (seq j n).
Proof.
  revert j. induction n as [|n IH]; intros j; simpl; constructor; [apply IH|].
  apply Forall_forall. intros x Hx. apply elem_of_seq in Hx. lia.
Qed.

Lemma all_buckets_sorted (n : nat) : StronglySorted scan_before (all_buckets n).
Proof.
  unfold all_buckets. apply StronglySorted_app_2.
  - intros x y Hx Hy. apply list_elem_of_fmap in Hx as (i & -> & _).
    apply list_elem_of_fmap in Hy as (j & -> & _). left. auto.
  - apply (StronglySorted_fmap _ Nat.lt); [|apply seq_sorted].
    intros x y Hxy. right. auto.
  - apply (StronglySorted_fmap _ Nat.lt); [|apply seq_sorted].
    intros x y Hxy. right. auto.
Qed.

Lemma scan_before_irrefl (b : bucket_id) : ~ scan_before b b.
Proof. intros [[H1 H2] | [_ H]]; [congruence | lia]. Qed.

Lemma scan_before_asym (a b : bucket_id) : scan_before a b -> ~ scan_before b a.
Proof.
  intros [[H1 H2] | [H1 H2]] [[H3 H4] | [H3 H4]]; try congruence; lia.
Qed.

Lemma scan_before_total (a b : bucket_id) :
  a <> b -> scan_before a b \/ scan_before b a.
Proof.
  destruct a as [[] i], b as [[] j]; unfold scan_before; simpl; intros Hne;
    try (left; left; split; reflexivity); try (right; left; split; reflexivity);
    assert (i <> j) by congruence;
    destruct (Nat.lt_ge_cases i j); [left | right | left | right]; right; split;
    auto; lia.
Qed.

(** Around a bucket [b] of the scan order, the buckets before it are scanned
    before it and the buckets after it are scanned after it. *)
Lemma all_buckets_split (n : nat) (L1 L2 : list bucket_id) (b : bucket_id) :
  all_buckets n = L1 ++ b :: L2 ->
  (forall c, c ∈ L1 -> scan_before c b) /\ (forall c, c ∈ L2 -> scan_before b c).
Proof.
  intros Hsplit. pose proof (all_buckets_sorted n) as Hs. rewrite Hsplit in Hs.
  apply StronglySorted_app in Hs as (Hcross & _ & Hs2).
  apply StronglySorted_cons in Hs2 as [Hall _].
  split.
  - intros c Hc. apply Hcross; [exact Hc | apply elem_of_cons; auto].
  - intros c Hc. rewrite Forall_forall in Hall. apply Hall, Hc.
Qed.

Lemma sorted_NoDup {A : Type} (R : relation A) (l : list A) :
  (forall x, ~ R x x) -> StronglySorted R l -> NoDup l.
Proof.
  intros Hirr. induction 1 as [|x l Hs IH Hall]; constructor; [|exact IH].
  intros Hx. rewrite Forall_forall in Hall. exact (Hirr x (Hall x Hx)).
Qed.

Lemma all_buckets_NoDup (n : nat) : NoDup (all_buckets n).
Proof. eapply sorted_NoDup; [apply scan_before_irrefl | apply all_buckets_sorted]. Qed.

Lemma sorted_lookup {A : Type} (R : relation A) (l : list A) (i j : nat) (x y : A) :
  StronglySorted R l -> (i < j)%nat -> l !! i = Some x -> l !! j = Some y -> R x y.
Proof.
  intros Hs. revert i j. induction Hs as [|a l Hs IH Hall]; intros i j Hij Hi Hj.
  - discriminate.
  - destruct j as [|j]; [lia|]. simpl in Hj. destruct i as [|i]; simpl in Hi.
    + injection Hi as ->. rewrite Forall_forall in Hall.
      apply Hall. eapply list_elem_of_lookup_2, Hj.
    + apply (IH i j); [lia | exact Hi | exact Hj].
Qed.

Lemma sorted_ext {A : Type} (R1 R2 : relation A) (l : list A) :
  (forall x y, R1 x y -> R2 x y) -> StronglySorted R1 l -> StronglySorted R2 l.
Proof.
  intros Himp. induction 1 as [|a l Hs IH Hall]; constructor; [exact IH|].
  eapply Forall_impl; [exact Hall | intros y; apply Himp].
Qed.

Lemma filter_bool_ext {A : Type} (f g : A -> bool) (l : list A) :
  (forall c, c ∈ l -> g c = f c) ->
  filter (fun c => g c = true) l = filter (fun c => f c = true) l.
Proof.
  induction l as [|a l IH]; intros Hext; [reflexivity|].
  rewrite !filter_cons, (Hext a) by (apply elem_of_cons; auto).
  rewrite IH by (intros c Hc; apply Hext, elem_of_cons; auto).
  reflexivity.
Qed.

(** Taking one bucket out of the eligible ones. *)
Lemma filter_remove_one {A : Type} (f g : A -> bool) (l : list A) (b : A) :
  NoDup l -> b ∈ l -> f b = true -> g b = false ->
  (forall c, c <> b -> g c = f c) ->
  S (length (filter (fun c => g c = true) l)) =
  length (filter (fun c => f c = true) l).
Proof.
  intros Hnd Hin Hfb Hgb Hother. induction Hnd as [|a l Hnotin Hnd IH].
  - inversion Hin.
  - apply elem_of_cons in Hin as [<- | Hin].
    + rewrite (filter_cons_True (fun c => f c = true)) by exact Hfb.
      rewrite (filter_cons_False (fun c => g c = true)) by congruence.
      simpl. f_equal. f_equal. apply filter_bool_ext.
      intros c Hc. apply Hother. intros ->. contradiction.
    + assert (Hne : a <> b) by (intros ->; contradiction).
      rewrite !filter_cons, (Hother a Hne).
      destruct (decide (f a = true)); simpl; rewrite <- (IH Hin); reflexivity.
Qed.


(** *** One iteration *)

Lemma sort_step_mark (s : SeedResults.t E) (m : Z) (b : bucket_id) :
  sort_scan s = (m, b.2, b.1) -> sort_step s = mark s b.
Proof. intros H. unfold sort_step, mark. rewrite H. reflexivity. Qed.

Lemma same_hits (s s' : SeedResults.t E) (b : bucket_id) :
  hitsFw_ s' = hitsFw_ s -> hitsRc_ s' = hitsRc_ s ->
  elts_at s' b = elts_at s b /\ holds_elts s' b = holds_elts s b.
Proof.
  intros HF HR. unfold elts_at, holds_elts, bucket. rewrite HF, HR. auto.
Qed.

Lemma eligible_holds (s : SeedResults.t E) (b : bucket_id) :
  eligible s b = true <-> holds_elts s b = true /\ flag s b = Some false.
Proof.
  unfold eligible, holds_elts.
  destruct (bucket s b.1 b.2) as [q|]; [|intuition discriminate].
  destruct (flag s b) as [[]|]; rewrite ?andb_true_iff; simpl;
    intuition (try discriminate; auto).
Qed.

Lemma mark_hits (s : SeedResults.t E) (b : bucket_id) :
  hitsFw_ (mark s b) = hitsFw_ s /\ hitsRc_ (mark s b) = hitsRc_ s /\
  numOffs_ (mark s b) = numOffs_ s /\ nonzTot_ (mark s b) = nonzTot_ s.
Proof. unfold mark. destruct b as [[] i]; simpl; auto. Qed.

Lemma mark_ranks (s : SeedResults.t E) (b : bucket_id) :
  length (rankFws_ s) = length (rankOffs_ s) ->
  ranks (mark s b) = ranks s ++ [b] /\
  length (rankFws_ (mark s b)) = length (rankOffs_ (mark s b)) /\
  length (rankOffs_ (mark s b)) = S (length (rankOffs_ s)).
Proof.
  intros Hlen. unfold ranks, mark. destruct b as [[] i]; simpl;
    rewrite zip_with_app by exact Hlen; rewrite !length_app; simpl;
    repeat split; lia.
Qed.

Lemma mark_flag (s : SeedResults.t E) (b c : bucket_id) :
  is_Some (flag s b) ->
  flag (mark s b) c = if decide (c = b) then Some true else flag s c.
Proof.
  intros Hsome. apply lookup_lt_is_Some in Hsome.
  destruct (decide (c = b)) as [-> | Hne].
  - unfold flag, mark in *. destruct b as [[] i]; simpl in *;
      apply list_lookup_insert_eq; exact Hsome.
  - unfold flag, mark. destruct b as [[] i], c as [[] j]; simpl; try reflexivity;
      apply list_lookup_insert_ne; congruence.
Qed.

Lemma mark_lengths (s : SeedResults.t E) (b : bucket_id) :
  length (sortedFw_ (mark s b)) = length (sortedFw_ s) /\
  length (sortedRc_ (mark s b)) = length (sortedRc_ s).
Proof.
  unfold mark. destruct b as [[] i]; simpl; rewrite ?length_insert; auto.
Qed.

Lemma mark_frame (s : SeedResults.t E) (b : bucket_id) :
  unranked (mark s b) = unranked s.
Proof. destruct s. destruct b as [[] i]; reflexivity. Qed.


Lemma sorting_hits (s0 s : SeedResults.t E) :
  sorting s0 s ->
  hitsFw_ s = hitsFw_ s0 /\ hitsRc_ s = hitsRc_ s0 /\
  numOffs_ s = numOffs_ s0 /\ nonzTot_ s = nonzTot_ s0 /\
  seqFw_ s = seqFw_ s0 /\ seqRc_ s = seqRc_ s0 /\
  offIdx2off_ s = offIdx2off_ s0.
Proof.
  intros H. destruct H as [Hf _ _ _ _ _ _ _ _]. destruct s, s0.
  unfold unranked in Hf. simpl in Hf. injection Hf as -> -> -> -> -> -> -> ->.
  simpl. intros. subst. auto 10.
Qed.

Lemma length_ranks (s : SeedResults.t E) :
  length (rankFws_ s) = length (rankOffs_ s) ->
  length (ranks s) = length (rankOffs_ s).
Proof. intros H. unfold ranks. rewrite length_zip_with_l_eq; lia. Qed.

(** An iteration of the loop maintains the invariant and ranks one more
    bucket. *)
Lemma sort_step_sorting (s0 s : SeedResults.t E) :
  sort_ready s0 -> sorting s0 s ->
  Z.of_nat (length (rankOffs_ s)) < nonzTot_ s ->
  sorting s0 (sort_step s) /\
  length (rankOffs_ (sort_step s)) = S (length (rankOffs_ s)).
Proof.
  intros Hready Hs Hlt.
  destruct (sorting_hits s0 s Hs) as (HF & HR & HN & HZ & _).
  pose proof Hs as [Hframe HlF HlR Hlrk Hflags Hranked Horder Hrest Hcount].
  pose proof (length_ranks s Hlrk) as Hlenr.
  set (L := all_buckets (numOffs_ s)) in *.
  assert (Hex : exists c, c ∈ L /\ eligible s c = true).
  { destruct (filter (fun b => eligible s b = true) L) as [|c l] eqn:Hfil.
    - simpl in Hcount. lia.
    - exists c. assert (Hc : c ∈ filter (fun b => eligible s b = true) L)
        by (rewrite Hfil; left).
      apply list_elem_of_filter in Hc. tauto. }
  destruct Hex as (c & HcL & Hc).
  assert (Hsmall : elts_at s c < UINT32_MAX).
  { apply eligible_holds in Hc as [Hh _].
    destruct (same_hits s0 s c HF HR) as [He Hho]. rewrite He.
    apply (ready_small s0 Hready). congruence. }
  destruct (fold_visit_spec s L UINT32_MAX 0%nat true)
    as [[_ Hmin] | (L1 & b & L2 & HL & Hr & Hb & _ & H1 & H2)].
  { specialize (Hmin c HcL Hc). lia. }
  rewrite (sort_step_mark s (elts_at s b) b) by (rewrite sort_scan_flat; exact Hr).
  destruct (all_buckets_split _ _ _ _ HL) as [Hbefore Hafter].
  assert (HbL : b ∈ L) by (rewrite HL; apply elem_of_app; right; left).
  pose proof Hb as Hbel. apply eligible_holds in Hb as [Hbh Hbf].
  destruct (mark_hits s b) as (MF & MR & MN & MZ).
  destruct (mark_ranks s b Hlrk) as (Mranks & Mlen & Mlen').
  assert (Mflag : forall x, flag (mark s b) x =
                            if decide (x = b) then Some true else flag s x)
    by (intros x; apply mark_flag; rewrite Hbf; eauto).
  destruct (mark_lengths s b) as [MlF MlR].
  assert (Helts : forall x, elts_at (mark s b) x = elts_at s x /\
                            holds_elts (mark s b) x = holds_elts s x)
    by (intros x; apply same_hits; assumption).
  assert (Hrl : forall x y, rank_lt s x y -> rank_lt (mark s b) x y).
  { intros x y. unfold rank_lt.
    destruct (Helts x) as [-> _]. destruct (Helts y) as [-> _]. tauto. }
  assert (Hel' : forall y, eligible (mark s b) y = true ->
                           y <> b /\ eligible s y = true).
  { intros y Hy. apply eligible_holds in Hy as [Hyh Hyf].
    rewrite Mflag in Hyf. destruct (decide (y = b)); [discriminate|].
    split; [assumption|]. apply eligible_holds.
    destruct (Helts y) as [_ <-]. auto. }
  split; [|exact Mlen'].
  constructor.
  - rewrite mark_frame. exact Hframe.
  - rewrite MlF, MN. exact HlF.
  - rewrite MlR, MN. exact HlR.
  - exact Mlen.
  - intros x Hx. rewrite MN in Hx.
    rewrite Mflag, Mranks, elem_of_app, list_elem_of_singleton.
    destruct (decide (x = b)) as [-> | Hne]; [tauto|].
    rewrite (Hflags x Hx). tauto.
  - intros x Hx. rewrite Mranks in Hx. rewrite MN.
    destruct (Helts x) as [_ ->].
    apply elem_of_app in Hx as [Hx | Hx]; [apply Hranked, Hx|].
    apply list_elem_of_singleton in Hx as ->. auto.
  - rewrite Mranks. apply (sorted_ext (rank_lt s)); [exact Hrl|].
    apply StronglySorted_app_2; [|exact Horder|repeat constructor].
    intros x y Hx Hy. apply list_elem_of_singleton in Hy as ->.
    apply Hrest; assumption.
  - intros x y Hx Hy Hyel. rewrite Mranks in Hx. rewrite MN in Hy.
    apply Hrl. destruct (Hel' y Hyel) as [Hne Hyel0].
    apply elem_of_app in Hx as [Hx | Hx]; [apply Hrest; assumption|].
    apply list_elem_of_singleton in Hx as ->.
    fold L in Hy. rewrite HL in Hy.
    apply elem_of_app in Hy as [Hy | Hy].
    + left. apply H1; assumption.
    + apply elem_of_cons in Hy as [-> | Hy]; [contradiction|].
      specialize (H2 y Hy Hyel0). specialize (Hafter y Hy).
      unfold rank_lt. destruct (Z.eq_dec (elts_at s b) (elts_at s y)); [right | left];
        auto; lia.
  - rewrite Mranks, length_app, MN, MZ. simpl.
    pose proof (filter_remove_one (eligible s) (eligible (mark s b)) L b
                  (all_buckets_NoDup _) HbL Hbel) as Hrem.
    fold L. rewrite <- Hcount.
    rewrite <- Hrem; [lia | |].
    + destruct (eligible (mark s b) b) eqn:Hbb; [|reflexivity].
      destruct (Hel' b Hbb) as [Hne _]. contradiction.
    + intros y Hne. destruct (eligible s y) eqn:Hy.
      * apply eligible_holds. apply eligible_holds in Hy as [Hyh Hyf].
        rewrite Mflag, decide_False by exact Hne.
        destruct (Helts y) as [_ ->]. auto.
      * destruct (eligible (mark s b) y) eqn:Hy'; [|reflexivity].
        destruct (Hel' y Hy') as [_ Hy0]. congruence.
Qed.


(** *** The loop *)

Lemma sort_ready_sorting (s : SeedResults.t E) : sort_ready s -> sorting s s.
Proof.
  intros [Hoffs HhF HhR HsF HsR Hoi HflF HflR HrO HrF Hnz Hsm].
  assert (Hranks : ranks s = []) by (unfold ranks; rewrite HrO, HrF; reflexivity).
  assert (Hflag : forall b, b ∈ all_buckets (numOffs_ s) -> flag s b = Some false).
  { intros b Hb. apply elem_of_all_buckets in Hb. unfold flag.
    destruct b as [[] i]; simpl in *; rewrite ?HflF, ?HflR;
      apply lookup_replicate_2; exact Hb. }
  constructor.
  - reflexivity.
  - rewrite HflF. apply length_replicate.
  - rewrite HflR. apply length_replicate.
  - rewrite HrO, HrF. reflexivity.
  - intros b Hb. rewrite Hranks, (Hflag b Hb). split; [discriminate|].
    intros H. inversion H.
  - intros b Hb. rewrite Hranks in Hb. inversion Hb.
  - rewrite Hranks. constructor.
  - intros b c Hb. rewrite Hranks in Hb. inversion Hb.
  - rewrite Hranks, Hnz. unfold nonempty_buckets. simpl.
    rewrite (filter_bool_ext (holds_elts s) (eligible s)); [reflexivity|].
    intros c Hc.
    destruct (eligible s c) eqn:He.
    + apply eligible_holds in He as [He _]. congruence.
    + destruct (holds_elts s c) eqn:Hh; [|reflexivity].
      rewrite <- He. apply eligible_holds. auto.
Qed.

(** The loop ends, within [fuel] iterations when [fuel] is at least the
    number of ranks still missing, in a state that satisfies the invariant
    and in which at least [nonzTot_] buckets are ranked. *)
Lemma sort_loop_sorting (s0 : SeedResults.t E) (fuel : nat) (s : SeedResults.t E) :
  sort_ready s0 -> sorting s0 s ->
  nonzTot_ s - Z.of_nat (length (rankOffs_ s)) <= Z.of_nat fuel ->
  exists s1, sort_loop fuel s = Some (set_sorted true s1) /\ sorting s0 s1 /\
             nonzTot_ s1 <= Z.of_nat (length (rankOffs_ s1)).
Proof.
  intros Hready. revert s. induction fuel as [|fuel IH]; intros s Hs Hfuel;
    cbn [sort_loop];
    destruct (Z.of_nat (length (rankOffs_ s)) <? nonzTot_ s) eqn:Hlt;
    bool_to_prop.
  - lia.
  - exists s. auto.
  - destruct (sort_step_sorting s0 s Hready Hs Hlt) as [Hs' Hlen].
    destruct (sorting_hits s0 s Hs) as (_ & _ & _ & HZ & _).
    destruct (sorting_hits s0 _ Hs') as (_ & _ & _ & HZ' & _).
    apply IH; [exact Hs'|]. rewrite Hlen, HZ', <- HZ. lia.
  - exists s. auto.
Qed.


Lemma rank_lt_irrefl (s : SeedResults.t E) (b : bucket_id) : ~ rank_lt s b b.
Proof. intros [H | [_ H]]; [lia | exact (scan_before_irrefl b H)]. Qed.

(** [sort] returns; the state it returns differs from a state [s1] only in
    [sorted_], and [s1] satisfies the invariant with exactly the buckets
    that hold elements ranked. *)
Lemma sort_sorted (s : SeedResults.t E) :
  sort_ready s ->
  exists s1, sort s = Some (set_sorted true s1) /\ sorting s s1 /\
             Z.of_nat (length (ranks s1)) = nonzTot_ s1 /\
             NoDup (ranks s1) /\
             (forall b, b ∈ ranks s1 <-> b ∈ nonempty_buckets s1).
Proof.
  intros Hready. pose proof (sort_ready_sorting s Hready) as Hs.
  destruct (sort_loop_sorting s (Z.to_nat (nonzTot_ s)) s Hready Hs)
    as (s1 & Hloop & Hs1 & Hge).
  { rewrite (ready_nonz s Hready). lia. }
  exists s1. split; [exact Hloop|]. split; [exact Hs1|].
  pose proof Hs1 as [Hframe HlF HlR Hlrk Hflags Hranked Horder Hrest Hcount].
  pose proof (length_ranks s1 Hlrk) as Hlenr.
  assert (Hnone : filter (fun b => eligible s1 b = true)
                         (all_buckets (numOffs_ s1)) = []).
  { apply length_zero_iff_nil. lia. }
  split; [lia|].
  split; [eapply sorted_NoDup; [apply rank_lt_irrefl | exact Horder]|].
  intros b. unfold nonempty_buckets. rewrite list_elem_of_filter. split.
  - intros Hb. destruct (Hranked b Hb). auto.
  - intros [Hh Hb]. apply (Hflags b Hb).
    assert (Hsome : is_Some (flag s1 b)).
    { apply elem_of_all_buckets in Hb. apply lookup_lt_is_Some. unfold flag.
      destruct b as [[] i]; simpl in *; lia. }
    destruct Hsome as [[] Hf]; [exact Hf|].
    assert (Hel : b ∈ filter (fun b => eligible s1 b = true)
                            (all_buckets (numOffs_ s1)))
      by (apply list_elem_of_filter; split; [apply eligible_holds|]; auto).
    rewrite Hnone in Hel. inversion Hel.
Qed.


(** *** Reading the ranking *)

Lemma hitsByRank_ranked (s : SeedResults.t E) (r : nat) (b : bucket_id) :
  ranks s !! r = Some b ->
  (b.2 < length (offIdx2off_ s))%nat ->
  (b.2 < length (seqFw_ s))%nat -> (b.2 < length (seqRc_ s))%nat ->
  (b.2 < length (hitsFw_ s))%nat -> (b.2 < length (hitsRc_ s))%nat ->
  exists q off len,
    hitsByRank s r = Some (q, b.2, off, b.1, len) /\ bucket s b.1 b.2 = Some q.
Proof.
  intros Hr Hoff HsF HsR HhF HhR. destruct b as [fw i]. simpl in *.
  apply lookup_zip_with_Some in Hr as (fw' & i' & [= <- <-] & Hfw & Hi).
  destruct (lookup_lt_is_Some_2 _ _ Hoff) as [off Ho].
  unfold hitsByRank, bucket. rewrite Hfw, Hi. simpl. rewrite Ho. simpl.
  destruct fw.
  - destruct (lookup_lt_is_Some_2 _ _ HsF) as [sq Hsq].
    destruct (lookup_lt_is_Some_2 _ _ HhF) as [q Hq].
    cbv zeta. unfold BTDnaString in *. rewrite Hsq. simpl. rewrite Hq. simpl.
    eauto.
  - destruct (lookup_lt_is_Some_2 _ _ HsR) as [sq Hsq].
    destruct (lookup_lt_is_Some_2 _ _ HhR) as [q Hq].
    cbv zeta. unfold BTDnaString in *. rewrite Hsq. simpl. rewrite Hq. simpl.
    eauto.
Qed.


(** After [sort], the ranks below [nonzTot_] can be read through
    [hitsByRank], and rank [r] gives the hits of the bucket [ranks !! r]. *)
Lemma sort_result (s : SeedResults.t E) :
  sort_ready s ->
  exists s', sort s = Some s' /\
    unranked s' = unranked (set_sorted true s) /\
    Z.of_nat (length (ranks s')) = nonzTot_ s' /\
    NoDup (ranks s') /\
    StronglySorted (rank_lt s') (ranks s') /\
    (forall b, b ∈ ranks s' <-> b ∈ nonempty_buckets s') /\
    (forall r b, ranks s' !! r = Some b ->
                 rank_elts s' r = Some (elts_at s' b)).
Proof.
  intros Hready. destruct (sort_sorted s Hready) as (s1 & Hsort & Hs1 & Hlen & Hnd & Hmem).
  pose proof Hs1 as [Hframe HlF HlR Hlrk Hflags Hranked Horder Hrest Hcount].
  destruct (sorting_hits s s1 Hs1) as (HF & HR & HN & HZ & HsF & HsR & HO).
  exists (set_sorted true s1). split; [exact Hsort|].
  split.
  { destruct s, s1. unfold unranked in *. simpl in *.
    injection Hframe as -> -> -> -> -> -> -> ->. intros. subst. reflexivity. }
  split; [exact Hlen|]. split; [exact Hnd|]. split; [exact Horder|].
  split; [exact Hmem|].
  intros r b Hr.
  assert (Hb : b ∈ ranks s1) by (eapply list_elem_of_lookup_2, Hr).
  destruct (Hranked b Hb) as [HbL _]. apply elem_of_all_buckets in HbL.
  destruct Hready as [Hoffs HhF HhR HqF HqR Hoi _ _ _ _ _ _].
  destruct (hitsByRank_ranked s1 r b Hr) as (q & off & len & Hby & Hq);
    rewrite ?HO, ?HsF, ?HsR, ?HF, ?HR; try lia.
  assert (Hrlt : (r < length (ranks s1))%nat) by (apply lookup_lt_is_Some; eauto).
  unfold rank_elts, hitsByRank_checked. simpl.
  replace (Z.of_nat r <? nonzTot_ s1) with true by (symmetry; apply Z.ltb_lt; lia).
  simpl. change (hitsByRank (set_sorted true s1) r) with (hitsByRank s1 r).
  rewrite Hby. simpl. unfold elts_at.
  change (bucket (set_sorted true s1) b.1 b.2) with (bucket s1 b.1 b.2).
  rewrite Hq. reflexivity.
Qed.


End SortFacts.

(** The state [three_offsets_added] is one in which [sort] may be called. *)
Lemma three_offsets_ready : SeedResultsSpec.sort_ready three_offsets_added.
Proof.
  constructor.
  12: { intros [[] [|[|[|i]]]] Hb; try discriminate Hb; vm_compute; reflexivity. }
  all: vm_compute; try reflexivity; try discriminate; lia.
Qed.

Lemma tie_ready : SeedResultsSpec.sort_ready tie_added.
Proof.
  constructor.
  12: { intros [[] [|i]] Hb; try discriminate Hb; vm_compute; reflexivity. }
  all: vm_compute; try reflexivity; try discriminate; lia.
Qed.

(** * Further properties *)

(** ** Constraint: guards and charges *)

(** A difference of two ints that are close enough does not wrap. *)
Lemma wrap_int_sub (a b : Z) :
  in_int a -> 0 <= a -> 0 <= b <= INT_MAX -> wrap_int (a - b) = a - b.
Proof.
  intros Ha Ha0 Hb. apply wrap_int_id.
  unfold in_int, INT_MIN, INT_MAX in *. lia.
Qed.

Lemma wrap_int_pred (a : Z) : in_int a -> 0 <= a -> wrap_int (a - 1) = a - 1.
Proof. intros Ha Ha0. apply wrap_int_sub; unfold INT_MAX; auto; lia. Qed.

Lemma leb_true (a b : Z) : a <= b -> (a <=? b) = true.
Proof. apply Z.leb_le. Qed.

Lemma leb_false (a b : Z) : b < a -> (a <=? b) = false.
Proof. apply Z.leb_gt. Qed.

Lemma ltb_true (a b : Z) : a < b -> (a <? b) = true.
Proof. apply Z.ltb_lt. Qed.

(** [canDelete] protects [chargeDelete].  On an instantiated constraint with
    non-negative budgets and a table of non-negative penalties, whenever
    [canDelete(ex, pens)] is true [chargeDelete(ex, pens)] passes all of its
    assertions, decrements [dels] and [edits], subtracts [pens.del(ex)] from
    [penalty], leaves the three non-negative and changes no other budget. *)
Theorem canDelete_guards_chargeDelete
    (c : Constraint.t) (ex : Z) (cm : Penalties.t) :
  Constraint.wf c -> Constraint.budgets_nonneg c -> Penalties.ok cm ->
  Constraint.instantiated c = true ->
  Constraint.canDelete c ex cm = true ->
  let c' := Constraint.chargeDelete c ex cm in
  Constraint.chargeDelete_checked c ex cm = Some c' /\
  Constraint.dels c' = Constraint.dels c - 1 /\
  Constraint.edits c' = Constraint.edits c - 1 /\
  Constraint.penalty c' = Constraint.penalty c - Penalties.del cm ex /\
  0 <= Constraint.dels c' /\ 0 <= Constraint.edits c' /\
  0 <= Constraint.penalty c' /\
  Constraint.mms c' = Constraint.mms c /\ Constraint.ins c' = Constraint.ins c.
Proof.
  intros Hwf Hnn Hcm Hinst Hcan.
  unfold Constraint.canDelete in Hcan. bool_to_prop.
  destruct Hwf as (He & _ & _ & Hd & Hp & _).
  destruct Hnn as (He0 & _ & _ & Hd0).
  destruct (Hcm ex) as (_ & _ & _ & Hdel).
  cbv zeta. unfold Constraint.chargeDelete_checked, Constraint.chargeDelete.
  rewrite Hinst. simpl.
  rewrite (wrap_int_pred _ Hd Hd0), (wrap_int_pred _ He He0).
  rewrite (wrap_int_sub _ _ Hp ltac:(lia) Hdel).
  rewrite !leb_true by lia. simpl. repeat split; lia.
Qed.

Lemma canDelete_guards_chargeDelete_witness :
  Constraint.canDelete one_gap_each 0 (Penalties.uniform 25) = true /\
  Constraint.chargeDelete_checked one_gap_each 0 (Penalties.uniform 25) =
    Some (Constraint.mk 1 0 1 0 15 INT_MAX INT_MAX INT_MAX INT_MAX INT_MAX
            FLT_MAX FLT_MAX true).
Proof.
  assert (Hwf : Constraint.wf one_gap_each)
    by (unfold Constraint.wf, in_int, one_gap_each; simpl;
        unfold INT_MIN, INT_MAX; lia).
  assert (Hnn : Constraint.budgets_nonneg one_gap_each)
    by (unfold Constraint.budgets_nonneg, one_gap_each; simpl; lia).
  assert (Hcm : Penalties.ok (Penalties.uniform 25))
    by (apply uniform_ok; unfold INT_MAX; lia).
  assert (Hcan : Constraint.canDelete one_gap_each 0 (Penalties.uniform 25) = true)
    by (vm_compute; reflexivity).
  destruct (canDelete_guards_chargeDelete one_gap_each 0 (Penalties.uniform 25)
              Hwf Hnn Hcm eq_refl Hcan) as [Hchk _].
  split; [exact Hcan | exact Hchk].
Defined.

(** [canN] protects [chargeN], in the same way as [canMismatch] protects
    [chargeMismatch]: when [canN(q, pens)] is true, [chargeN(q, pens)] passes
    its assertions, decrements [mms] if [mms > 0] and [edits] otherwise,
    subtracts [pens.n(q)] from [penalty] and leaves the three
    non-negative. *)
Theorem canN_guards_chargeN (c : Constraint.t) (q : Z) (cm : Penalties.t) :
  Constraint.wf c -> Constraint.budgets_nonneg c -> Penalties.ok cm ->
  Constraint.instantiated c = true ->
  Constraint.canN c q cm = true ->
  let c' := Constraint.chargeN c q cm in
  Constraint.chargeN_checked c q cm = Some c' /\
  Constraint.mms c' =
    (if 0 <? Constraint.mms c then Constraint.mms c - 1 else Constraint.mms c) /\
  Constraint.edits c' =
    (if 0 <? Constraint.mms c then Constraint.edits c else Constraint.edits c - 1) /\
  Constraint.penalty c' = Constraint.penalty c - Penalties.n cm q /\
  0 <= Constraint.mms c' /\ 0 <= Constraint.edits c' /\
  0 <= Constraint.penalty c' /\
  Constraint.ins c' = Constraint.ins c /\ Constraint.dels c' = Constraint.dels c.
Proof.
  intros Hwf Hnn Hcm Hinst Hcan.
  unfold Constraint.canN in Hcan. apply andb_prop in Hcan as [Hbud Hpen].
  bool_to_prop.
  destruct Hwf as (He & Hm & _ & _ & Hp & _).
  destruct Hnn as (He0 & Hm0 & _).
  destruct (Hcm q) as (_ & Hn & _).
  cbv zeta. unfold Constraint.chargeN_checked, Constraint.chargeN.
  rewrite Hinst. simpl.
  destruct (Constraint.mms c =? 0) eqn:Hz; bool_to_prop.
  - assert (Hlt : 0 < Constraint.edits c)
      by (destruct Hbud as [Hb | Hb]; bool_to_prop; lia).
    rewrite (ltb_true _ _ Hlt). simpl.
    rewrite (wrap_int_pred _ He He0), (wrap_int_sub _ _ Hp ltac:(lia) Hn).
    rewrite Hz. simpl. rewrite !leb_true by lia. simpl.
    repeat split; lia.
  - assert (Hlt : 0 < Constraint.mms c) by lia.
    simpl.
    rewrite (wrap_int_pred _ Hm Hm0), (wrap_int_sub _ _ Hp ltac:(lia) Hn).
    rewrite (ltb_true _ _ Hlt). rewrite !leb_true by lia. simpl.
    repeat split; lia.
Qed.

Lemma canN_guards_chargeN_witness :
  Constraint.canN two_mms 40 (Penalties.uniform 30) = true /\
  Constraint.chargeN_checked two_mms 40 (Penalties.uniform 30) =
    Some (Constraint.mk 3 1 0 0 30 INT_MAX INT_MAX INT_MAX INT_MAX INT_MAX
            FLT_MAX FLT_MAX true).
Proof.
  assert (Hwf : Constraint.wf two_mms)
    by (unfold Constraint.wf, in_int, two_mms; simpl; unfold INT_MIN, INT_MAX; lia).
  assert (Hnn : Constraint.budgets_nonneg two_mms)
    by (unfold Constraint.budgets_nonneg, two_mms; simpl; lia).
  assert (Hcm : Penalties.ok (Penalties.uniform 30))
    by (apply uniform_ok; unfold INT_MAX; lia).
  assert (Hcan : Constraint.canN two_mms 40 (Penalties.uniform 30) = true)
    by (vm_compute; reflexivity).
  destruct (canN_guards_chargeN two_mms 40 (Penalties.uniform 30)
              Hwf Hnn Hcm eq_refl Hcan) as [Hchk _].
  split; [exact Hcan | exact Hchk].
Defined.

(** When the assertions of [chargeInsert] hold.  On a constraint with
    non-negative budgets and penalty and a table of non-negative penalties,
    [chargeInsert(ex, pens)] passes its assertions exactly when the constraint
    is instantiated, [ins > 0], [edits > 0] and [penalty >= pens.ins(ex)]:
    both counters must be positive, not one of them as [canInsert] tests. *)
Theorem chargeInsert_checked_iff (c : Constraint.t) (ex : Z) (cm : Penalties.t) :
  Constraint.wf c -> Constraint.budgets_nonneg c -> 0 <= Constraint.penalty c ->
  Penalties.ok cm ->
  (is_Some (Constraint.chargeInsert_checked c ex cm) <->
   Constraint.instantiated c = true /\ 0 < Constraint.ins c /\
   0 < Constraint.edits c /\ Penalties.ins cm ex <= Constraint.penalty c).
Proof.
  intros Hwf Hnn Hp0 Hcm.
  destruct Hwf as (He & _ & Hi & _ & Hp & _).
  destruct Hnn as (He0 & _ & Hi0 & _).
  destruct (Hcm ex) as (_ & _ & Hins & _).
  unfold Constraint.chargeInsert_checked, Constraint.chargeInsert.
  destruct (Constraint.instantiated c); simpl;
    [|split; [intros [x Hx]; discriminate | intros [Hf _]; discriminate]].
  rewrite (wrap_int_pred _ Hi Hi0), (wrap_int_pred _ He He0).
  rewrite (wrap_int_sub _ _ Hp Hp0 Hins).
  destruct (0 <=? Constraint.ins c - 1) eqn:H1; simpl; bool_to_prop;
    [|split; [intros [x Hx]; discriminate | intros (_ & ? & _); lia]].
  destruct (0 <=? Constraint.edits c - 1) eqn:H2; simpl; bool_to_prop;
    [|split; [intros [x Hx]; discriminate | intros (_ & _ & ? & _); lia]].
  destruct (0 <=? Constraint.penalty c - Penalties.ins cm ex) eqn:H3; simpl;
    bool_to_prop;
    [|split; [intros [x Hx]; discriminate | intros (_ & _ & _ & ?); lia]].
  split; [intros _; repeat split; lia | eauto].
Qed.

Lemma chargeInsert_checked_iff_witness :
  is_Some (Constraint.chargeInsert_checked one_gap_each 0 (Penalties.uniform 25)) /\
  ~ is_Some (Constraint.chargeInsert_checked one_edit_no_ins 0 (Penalties.uniform 5)).
Proof.
  assert (Hwf : forall c, c = one_gap_each \/ c = one_edit_no_ins ->
                          Constraint.wf c /\ Constraint.budgets_nonneg c /\
                          0 <= Constraint.penalty c).
  { intros c [-> | ->];
      unfold Constraint.wf, Constraint.budgets_nonneg, in_int, one_gap_each,
        one_edit_no_ins; simpl; unfold INT_MIN, INT_MAX; lia. }
  destruct (Hwf one_gap_each (or_introl eq_refl)) as (W1 & N1 & P1).
  destruct (Hwf one_edit_no_ins (or_intror eq_refl)) as (W2 & N2 & P2).
  assert (Hcm1 : Penalties.ok (Penalties.uniform 25))
    by (apply uniform_ok; unfold INT_MAX; lia).
  assert (Hcm2 : Penalties.ok (Penalties.uniform 5))
    by (apply uniform_ok; unfold INT_MAX; lia).
  split.
  - apply (chargeInsert_checked_iff one_gap_each 0 (Penalties.uniform 25)
             W1 N1 P1 Hcm1).
    unfold one_gap_each; simpl. repeat split; lia.
  - intros Hsome.
    apply (chargeInsert_checked_iff one_edit_no_ins 0 (Penalties.uniform 5)
             W2 N2 P2 Hcm2) in Hsome.
    destruct Hsome as (_ & Hins & _). unfold one_edit_no_ins in Hins.
    simpl in Hins. lia.
Defined.

(** ** Constraint: how the predicates relate *)

(** [canGap()] is true exactly when an insertion or a deletion of some
    extension is permitted: it is the disjunction of [canInsert()] and
    [canDelete()]. *)
Theorem canGap_insert_or_delete (c : Constraint.t) :
  Constraint.canGap c = Constraint.canInsert_any c || Constraint.canDelete_any c.
Proof.
  unfold Constraint.canGap, Constraint.canInsert_any, Constraint.canDelete_any.
  destruct (0 <? Constraint.ins c), (0 <? Constraint.dels c),
    (0 <? Constraint.edits c), (0 <? Constraint.penalty c); reflexivity.
Qed.

(** An edit that is permitted at a positive penalty is permitted by the
    predicate that asks for an edit of any quality or extension: a mismatch,
    an insertion or a deletion that costs something, and any N. *)
Theorem specific_edit_permitted_any
    (c : Constraint.t) (x : Z) (cm : Penalties.t) :
  Penalties.ok cm ->
  (Constraint.canMismatch c x cm = true -> 0 < Penalties.mm cm x ->
   Constraint.canMismatch_any c = true) /\
  (Constraint.canN c x cm = true -> Constraint.canN_any c = true) /\
  (Constraint.canInsert c x cm = true -> 0 < Penalties.ins cm x ->
   Constraint.canInsert_any c = true) /\
  (Constraint.canDelete c x cm = true -> 0 < Penalties.del cm x ->
   Constraint.canDelete_any c = true).
Proof.
  intros Hcm.
  unfold Constraint.canMismatch, Constraint.canMismatch_any, Constraint.canN,
    Constraint.canN_any, Constraint.canInsert, Constraint.canInsert_any,
    Constraint.canDelete, Constraint.canDelete_any.
  repeat split; intros H; try intros Hpos;
    apply andb_prop in H as [Hb Hp]; apply Z.leb_le in Hp.
  - rewrite Hb. simpl. apply Z.ltb_lt. lia.
  - exact Hb.
  - rewrite Hb. simpl. apply Z.ltb_lt. lia.
  - apply andb_prop in Hb as [Hd He]. rewrite Hd. simpl. apply Z.ltb_lt. lia.
Qed.

Lemma specific_edit_permitted_any_witness :
  Constraint.canDelete one_gap_each 0 (Penalties.uniform 25) = true /\
  Constraint.canDelete_any one_gap_each = true.
Proof.
  assert (Hcm : Penalties.ok (Penalties.uniform 25))
    by (apply uniform_ok; unfold INT_MAX; lia).
  assert (Hcan : Constraint.canDelete one_gap_each 0 (Penalties.uniform 25) = true)
    by (vm_compute; reflexivity).
  destruct (specific_edit_permitted_any one_gap_each 0 (Penalties.uniform 25) Hcm)
    as (_ & _ & _ & Hdel).
  split; [exact Hcan|]. apply Hdel; [exact Hcan | simpl; lia].
Defined.

(** What [mustMatch()] tests.  With non-negative budgets and penalty,
    [mustMatch()] is true exactly when no mismatch of any quality is
    permitted or when [mms], [dels] and [ins] are all zero.  So it can be
    true although [edits > 0] still permits a mismatch: whenever
    [mms = dels = ins = 0], [edits > 0] and [penalty > 0], both [mustMatch()]
    and [canMismatch()] are true. *)
Theorem mustMatch_iff (c : Constraint.t) :
  Constraint.budgets_nonneg c -> 0 <= Constraint.penalty c ->
  (Constraint.mustMatch c = true <->
   Constraint.canMismatch_any c = false \/
   (Constraint.mms c = 0 /\ Constraint.dels c = 0 /\ Constraint.ins c = 0)) /\
  (Constraint.mms c = 0 -> Constraint.dels c = 0 -> Constraint.ins c = 0 ->
   0 < Constraint.edits c -> 0 < Constraint.penalty c ->
   Constraint.mustMatch c = true /\ Constraint.canMismatch_any c = true).
Proof.
  intros (He & Hm & Hi & Hd) Hp.
  unfold Constraint.mustMatch, Constraint.canMismatch_any. split.
  - rewrite !orb_true_iff, !andb_true_iff, andb_false_iff, orb_false_iff,
      !Z.eqb_eq, !Z.ltb_ge. lia.
  - intros -> -> -> He1 Hp1. simpl.
    rewrite orb_true_r. rewrite (ltb_true _ _ He1), (ltb_true _ _ Hp1). auto.
Qed.

Lemma mustMatch_iff_witness :
  Constraint.mustMatch edits_only = true /\
  Constraint.canMismatch_any edits_only = true.
Proof.
  assert (Hnn : Constraint.budgets_nonneg edits_only)
    by (unfold Constraint.budgets_nonneg, edits_only; simpl; lia).
  assert (Hp : 0 <= Constraint.penalty edits_only)
    by (unfold edits_only; simpl; lia).
  destruct (mustMatch_iff edits_only Hnn Hp) as [_ Hboth].
  apply Hboth; unfold edits_only; simpl; lia.
Defined.

(** [init()] is fully permissive.  Instantiating a freshly initialised
    constraint against any read length leaves every budget at [INT_MAX]
    ([penConst] is the sentinel, so [penalty] is not recomputed); the result
    permits every edit of every table of non-negative penalties, does not
    force a match, and is acceptable. *)
Theorem init_fully_permissive (rdlen x : Z) (cm : Penalties.t) :
  Penalties.ok cm ->
  exists c,
    Constraint.instantiate Constraint.init rdlen = Some c /\
    c = Constraint.set_instantiated true Constraint.init /\
    Constraint.canMismatch c x cm = true /\ Constraint.canN c x cm = true /\
    Constraint.canInsert c x cm = true /\ Constraint.canDelete c x cm = true /\
    Constraint.canGap c = true /\ Constraint.mustMatch c = false /\
    Constraint.acceptable c = true.
Proof.
  intros Hcm. exists (Constraint.set_instantiated true Constraint.init).
  destruct (Hcm x) as (Hmm & Hn & Hins & Hdel).
  assert (Hinst : Constraint.instantiate Constraint.init rdlen =
                  Some (Constraint.set_instantiated true Constraint.init)).
  { unfold Constraint.instantiate.
    replace (f32_eqb (Constraint.penConst Constraint.init) FLT_MAX) with true
      by (vm_compute; reflexivity).
    reflexivity. }
  split; [exact Hinst|]. split; [reflexivity|].
  unfold Constraint.canMismatch, Constraint.canN, Constraint.canInsert,
    Constraint.canDelete. simpl.
  rewrite !leb_true by lia.
  repeat split; reflexivity.
Qed.

Lemma init_fully_permissive_witness :
  Constraint.instantiate Constraint.init 50 =
    Some (Constraint.set_instantiated true Constraint.init) /\
  Constraint.canDelete (Constraint.set_instantiated true Constraint.init) 3
    (Penalties.uniform 25) = true.
Proof.
  assert (Hcm : Penalties.ok (Penalties.uniform 25))
    by (apply uniform_ok; unfold INT_MAX; lia).
  destruct (init_fully_permissive 50 3 (Penalties.uniform 25) Hcm)
    as (c & Hc & -> & _ & _ & _ & Hdel & _).
  split; [exact Hc | exact Hdel].
Defined.

Lemma acceptable_iff (c : Constraint.t) :
  Constraint.acceptable c = true <->
  Constraint.edits c <= Constraint.editsCeil c /\
  Constraint.mms c <= Constraint.mmsCeil c /\
  Constraint.ins c <= Constraint.insCeil c /\
  Constraint.dels c <= Constraint.delsCeil c /\
  Constraint.penalty c <= Constraint.penaltyCeil c.
Proof.
  unfold Constraint.acceptable. rewrite !andb_true_iff, !Z.leb_le. tauto.
Qed.

(** A charge that its guard permits never turns an acceptable constraint
    into an unacceptable one: the budgets only go down and the ceilings stay.
    This holds for [chargeMismatch] after [canMismatch], [chargeN] after
    [canN] and [chargeDelete] after [canDelete]. *)
Theorem guarded_charge_keeps_acceptable
    (c : Constraint.t) (x : Z) (cm : Penalties.t) :
  Constraint.wf c -> Constraint.budgets_nonneg c -> Penalties.ok cm ->
  Constraint.acceptable c = true ->
  (Constraint.canMismatch c x cm = true ->
   Constraint.acceptable (Constraint.chargeMismatch c x cm) = true) /\
  (Constraint.canN c x cm = true ->
   Constraint.acceptable (Constraint.chargeN c x cm) = true) /\
  (Constraint.canDelete c x cm = true ->
   Constraint.acceptable (Constraint.chargeDelete c x cm) = true).
Proof.
  intros Hwf Hnn Hcm Hacc. apply acceptable_iff in Hacc.
  destruct Hwf as (He & Hm & _ & Hd & Hp & _).
  destruct Hnn as (He0 & Hm0 & _ & Hd0).
  destruct (Hcm x) as (Hmm & Hn & _ & Hdel).
  repeat split; intros Hcan; apply andb_prop in Hcan as [Hbud Hpen];
    apply Z.leb_le in Hpen; apply acceptable_iff.
  - unfold Constraint.chargeMismatch.
    destruct (Constraint.mms c =? 0) eqn:Hz; bool_to_prop; simpl;
      rewrite ?(wrap_int_pred _ He He0), ?(wrap_int_pred _ Hm Hm0),
        (wrap_int_sub _ _ Hp ltac:(lia) Hmm); lia.
  - unfold Constraint.chargeN.
    destruct (Constraint.mms c =? 0) eqn:Hz; bool_to_prop; simpl;
      rewrite ?(wrap_int_pred _ He He0), ?(wrap_int_pred _ Hm Hm0),
        (wrap_int_sub _ _ Hp ltac:(lia) Hn); lia.
  - unfold Constraint.chargeDelete. simpl.
    rewrite (wrap_int_pred _ He He0), (wrap_int_pred _ Hd Hd0),
      (wrap_int_sub _ _ Hp ltac:(lia) Hdel). lia.
Qed.

Lemma guarded_charge_keeps_acceptable_witness :
  Constraint.acceptable two_mms = true /\
  Constraint.acceptable (Constraint.chargeMismatch two_mms 40 (Penalties.uniform 30))
    = true.
Proof.
  assert (Hwf : Constraint.wf two_mms)
    by (unfold Constraint.wf, in_int, two_mms; simpl; unfold INT_MIN, INT_MAX; lia).
  assert (Hnn : Constraint.budgets_nonneg two_mms)
    by (unfold Constraint.budgets_nonneg, two_mms; simpl; lia).
  assert (Hcm : Penalties.ok (Penalties.uniform 30))
    by (apply uniform_ok; unfold INT_MAX; lia).
  assert (Hacc : Constraint.acceptable two_mms = true) by (vm_compute; reflexivity).
  destruct (guarded_charge_keeps_acceptable two_mms 40 (Penalties.uniform 30)
              Hwf Hnn Hcm Hacc) as (Hmm & _ & _).
  split; [exact Hacc|]. apply Hmm. vm_compute. reflexivity.
Defined.

(** ** Seed results: reset and the counters *)

Section MoreSeedResultsFacts.

Context {E : Externals} {L : ExternalsLaws E}.

Import SeedResults SeedResultsSpec.

(** [reset] forgets whatever the previous read left behind.  From any state,
    [reset(read, offIdx2off, numOffs)] leaves [numOffs] buckets per
    orientation, each holding the reset QVal (which is not valid), all sorted
    flags cleared, no rank, every counter zero, and the read and offset map
    it was given. *)
Theorem reset_clean (s : SeedResults.t E) (read : Read) (offs : list Z) (n : nat) :
  let s' := reset s read offs n in
  numOffs s' = n /\
  hitsFw_ s' = replicate n qv_reset /\ hitsRc_ s' = replicate n qv_reset /\
  (forall fw i q, hitsAtOffIdx s' fw i = Some q -> qv_valid q = false) /\
  (forall fw i, is_Some (hitsAtOffIdx s' fw i) <-> (i < n)%nat) /\
  sortedFw_ s' = replicate n false /\ sortedRc_ s' = replicate n false /\
  rankOffs_ s' = [] /\ rankFws_ s' = [] /\ sorted_ s' = false /\
  numElts s' = 0 /\ numRanges s' = 0 /\ empty s' = true /\
  numEltsFw s' = 0 /\ numRangesFw s' = 0 /\
  numEltsRc s' = 0 /\ numRangesRc s' = 0 /\
  nonzeroOffsets s' = 0 /\ nonzeroOffsetsFw s' = 0 /\ nonzeroOffsetsRc s' = 0 /\
  length (seqFw_ s') = n /\ length (seqRc_ s') = n /\
  offIdx2off_ s' = offs /\ read_ s' = Some read.
Proof.
  cbv zeta.
  assert (HF : hitsFw_ (reset s read offs n) = replicate n qv_reset)
    by (simpl; apply fill_resize).
  assert (HR : hitsRc_ (reset s read offs n) = replicate n qv_reset)
    by (simpl; apply fill_resize).
  split; [reflexivity|]. split; [exact HF|]. split; [exact HR|].
  split.
  { intros fw i q. unfold hitsAtOffIdx. rewrite HF, HR.
    destruct fw; intros Hq; apply lookup_replicate_1 in Hq as [-> _];
      apply qv_reset_invalid. }
  split.
  { intros fw i. unfold hitsAtOffIdx. rewrite HF, HR.
    destruct fw; rewrite lookup_lt_is_Some, length_replicate; reflexivity. }
  split; [simpl; apply fill_resize|]. split; [simpl; apply fill_resize|].
  repeat (split; [reflexivity|]).
  split; [simpl; apply length_resize|]. split; [simpl; apply length_resize|].
  split; reflexivity.
Qed.

Lemma sum_over_nonneg_zero (w : QVal -> Z) (l : list QVal) :
  Forall (fun q => 0 <= w q) l ->
  (sum_over w l = 0 <-> Forall (fun q => w q = 0) l).
Proof.
  induction 1 as [|q l Hq Hl IH]; simpl.
  - split; [constructor | reflexivity].
  - assert (Hs : 0 <= sum_over w l).
    { clear IH. induction Hl; simpl; lia. }
    rewrite Forall_cons. split.
    + intros Hsum. split; [lia|]. apply IH. lia.
    + intros [Hq0 Hl0]. apply IH in Hl0. lia.
Qed.

(** Every counter is the sum of what it counts.  After a sequence of calls
    that starts with [reset] and whose calls pass the assertions on their
    arguments, the element and range counters of each orientation are the
    sums of [numElts] and [numRanges] over the valid buckets of that
    orientation, [nonzeroOffsetsFw()] and [nonzeroOffsetsRc()] count the
    buckets with at least one range, the totals are the sums of the two
    orientations, and both hit arrays have [numOffs()] entries. *)
Theorem counters_are_sums
    (s0 s : SeedResults.t E) (read : Read) (offs : list Z) (n : nat)
    (ops : list (SeedResults.op E)) :
  small_resets (Reset read offs n :: ops) ->
  run s0 (Reset read offs n :: ops) = Some s ->
  inv s.
Proof.
  intros Hsmall Hrun. simpl in Hrun.
  destruct (reset_checked s0 read offs n) as [s1|] eqn:Hreset; simpl in Hrun;
    [|discriminate].
  apply Forall_cons in Hsmall as [Hn Hsmall].
  apply (run_inv ops s1 s); [|exact Hsmall | exact Hrun].
  apply (step_inv s0 s1 (Reset read offs n)); [exact Hn | exact I | exact Hreset].
Qed.

(** [empty()] tells whether any hit is held.  In a state reached by [reset]
    and [add], [empty()] is true exactly when no bucket holds a valid QVal
    with a range, which is exactly when [nonzeroOffsets()] is 0. *)
Theorem empty_iff_no_ranges
    (s0 s : SeedResults.t E) (read : Read) (offs : list Z) (n : nat)
    (ops : list (SeedResults.op E)) :
  small_resets (Reset read offs n :: ops) ->
  run s0 (Reset read offs n :: ops) = Some s ->
  (empty s = true <->
   forall fw i q, hitsAtOffIdx s fw i = Some q -> qv_valid q = true ->
                  qv_numRanges q = 0) /\
  (empty s = true <-> nonzeroOffsets s = 0).
Proof.
  intros Hsmall Hrun. simpl in Hrun.
  destruct (reset_checked s0 read offs n) as [s1|] eqn:Hreset; simpl in Hrun;
    [|discriminate].
  apply Forall_cons in Hsmall as [Hn Hsmall].
  assert (Hinv : inv s).
  { apply (run_inv ops s1 s); [|exact Hsmall | exact Hrun].
    apply (step_inv s0 s1 (Reset read offs n)); [exact Hn | exact I | exact Hreset]. }
  destruct Hinv.
  assert (Hw : forall l, Forall bucket_ok l ->
             Forall (fun q => 0 <= w_ranges q) l /\ Forall (fun q => 0 <= w_nonz q) l /\
             (Forall (fun q => w_ranges q = 0) l <-> Forall (fun q => w_nonz q = 0) l)).
  { intros l Hl. repeat split.
    - eapply Forall_impl; [exact Hl|]. intros q Hq.
      apply bucket_ok_weights in Hq. lia.
    - eapply Forall_impl; [exact Hl|]. intros q Hq.
      apply bucket_ok_weights in Hq. lia.
    - intros H. rewrite Forall_forall in *. intros q Hq.
      pose proof (bucket_ok_weights q (Hl q Hq)). specialize (H q Hq). lia.
    - intros H. rewrite Forall_forall in *. intros q Hq.
      specialize (H q Hq). specialize (Hl q Hq).
      unfold w_nonz, w_ranges in *. unfold bucket_ok in Hl.
      destruct (qv_valid q); [|reflexivity]. specialize (Hl eq_refl).
      simpl in H. destruct (0 <? qv_numRanges q) eqn:Hr; bool_to_prop; lia. }
  destruct (Hw _ inv_okFw0) as (HF0 & HFn & HFi).
  destruct (Hw _ inv_okRc0) as (HR0 & HRn & HRi).
  pose proof (sum_over_nonneg_zero w_ranges _ HF0) as ZF.
  pose proof (sum_over_nonneg_zero w_ranges _ HR0) as ZR.
  pose proof (sum_over_nonneg_zero w_nonz _ HFn) as NF.
  pose proof (sum_over_nonneg_zero w_nonz _ HRn) as NR.
  pose proof (buckets_ok_sums _ inv_okFw0) as BF.
  pose proof (buckets_ok_sums _ inv_okRc0) as BR.
  assert (Hempty : empty s = true <->
            Forall (fun q => w_ranges q = 0) (hitsFw_ s) /\
            Forall (fun q => w_ranges q = 0) (hitsRc_ s)).
  { unfold empty, numRanges. rewrite Z.eqb_eq, inv_ranges0, inv_rangesFw0,
      inv_rangesRc0, <- ZF, <- ZR. lia. }
  split.
  - rewrite Hempty. unfold hitsAtOffIdx. split.
    + intros [HF HR] fw i q Hq Hv. rewrite Forall_forall in HF, HR.
      destruct fw; apply list_elem_of_lookup_2 in Hq;
        [specialize (HF q Hq) | specialize (HR q Hq)];
        unfold w_ranges in *; rewrite Hv in *; assumption.
    + intros H. split; apply Forall_forall; intros q Hq;
        apply list_elem_of_lookup_1 in Hq as [i Hi]; unfold w_ranges;
        destruct (qv_valid q) eqn:Hv; try reflexivity.
      * apply (H true i q Hi Hv).
      * apply (H false i q Hi Hv).
  - rewrite Hempty, HFi, HRi, <- NF, <- NR. unfold nonzeroOffsets.
    rewrite inv_nonz0, inv_nonzFw0, inv_nonzRc0. lia.
Qed.

End MoreSeedResultsFacts.

Lemma reset_clean_witness :
  SeedResults.hitsAtOffIdx (SeedResults.reset three_offsets_added tt [0; 7] 2)
    true 1 = Some qv_reset /\
  qv_valid (@qv_reset ConcreteCache.externals) = false.
Proof.
  assert (H : SeedResults.hitsAtOffIdx
                (SeedResults.reset three_offsets_added tt [0; 7] 2) true 1
              = Some qv_reset) by (vm_compute; reflexivity).
  split; [exact H|].
  destruct (reset_clean three_offsets_added tt [0; 7] 2%nat)
    as (_ & _ & _ & Hv & _).
  exact (Hv true 1%nat qv_reset H).
Defined.

Lemma counters_are_sums_witness :
  SeedResultsSpec.inv three_offsets_added /\
  SeedResults.numElts three_offsets_added = 5 + 3 + 3 + 3.
Proof.
  assert (Hrun : SeedResults.run constructed
                   (SeedResults.Reset (E := ConcreteCache.externals) tt [0; 10; 20] 3
                      :: tail three_offsets_ops)
                 = Some three_offsets_added)
    by (vm_compute; reflexivity).
  assert (Hsmall : SeedResultsSpec.small_resets
                     (SeedResults.Reset (E := ConcreteCache.externals) tt [0; 10; 20] 3
                      :: tail three_offsets_ops))
    by (repeat constructor; unfold SeedResultsSpec.MAX_OFFS; simpl; lia).
  split; [|vm_compute; reflexivity].
  exact (counters_are_sums (L := concrete_laws) constructed three_offsets_added tt
           [0; 10; 20] 3%nat (tail three_offsets_ops) Hsmall Hrun).
Defined.

Lemma empty_iff_no_ranges_witness :
  SeedResults.empty three_offsets_added = false /\
  SeedResults.nonzeroOffsets three_offsets_added <> 0.
Proof.
  assert (Hrun : SeedResults.run constructed
                   (SeedResults.Reset (E := ConcreteCache.externals) tt [0; 10; 20] 3
                      :: tail three_offsets_ops)
                 = Some three_offsets_added)
    by (vm_compute; reflexivity).
  assert (Hsmall : SeedResultsSpec.small_resets
                     (SeedResults.Reset (E := ConcreteCache.externals) tt [0; 10; 20] 3
                      :: tail three_offsets_ops))
    by (repeat constructor; unfold SeedResultsSpec.MAX_OFFS; simpl; lia).
  destruct (empty_iff_no_ranges (L := concrete_laws) constructed
              three_offsets_added tt [0; 10; 20] 3%nat (tail three_offsets_ops)
              Hsmall Hrun) as [_ Hnz].
  split; [vm_compute; reflexivity|].
  intros H0. apply Hnz in H0. vm_compute in H0. discriminate.
Defined.

(** ** Seed results: the first [sort] after [reset] and [add] *)

Section FirstSortFacts.

Context {E : Externals} {L : ExternalsLaws E}.

Import SeedResults SeedResultsSpec.

Lemma reset_unsorted (s : SeedResults.t E) (read : Read) (offs : list Z) (n : nat) :
  (n <= length offs)%nat -> unsorted (reset s read offs n).
Proof.
  intros Hn. constructor; simpl; rewrite ?fill_resize, ?length_resize; auto.
  - apply Forall_replicate. intros Hv. rewrite qv_reset_invalid in Hv. discriminate.
  - apply Forall_replicate. intros Hv. rewrite qv_reset_invalid in Hv. discriminate.
Qed.

Lemma add_unsorted (s : SeedResults.t E) (qv : QVal) (ac : AlignmentCache)
    (idx : nat) (fw : bool) (len : Z) :
  unsorted s -> (qv_empty qv = false -> 0 < qv_numRanges qv) ->
  qv_numElts qv < UINT32_MAX ->
  unsorted (add s qv ac idx fw len).
Proof.
  intros Hun Hr He. unfold add. destruct (qv_empty qv) eqn:Hemp; [exact Hun|].
  assert (Hq : stored_ok qv) by (intros _; auto).
  destruct Hun. destruct fw, (0 <? qv_numRanges qv); constructor; simpl;
    try assumption; apply Forall_insert; assumption.
Qed.

Lemma run_unsorted (ops : list (SeedResults.op E)) (s s' : SeedResults.t E) :
  unsorted s -> rankable_ops ops -> run s ops = Some s' -> unsorted s'.
Proof.
  revert s. induction ops as [|o ops IH]; intros s Hun Hops; simpl.
  - intros [= <-]. exact Hun.
  - apply Forall_cons in Hops as [Ho Hops].
    destruct (step s o) as [s1|] eqn:Hstep; simpl; [|discriminate].
    apply IH; [|exact Hops].
    destruct o as [read offs n | qv ac idx fw len]; simpl in Hstep.
    + unfold reset_checked in Hstep.
      destruct (0 <? n)%nat; simpl in Hstep; [|discriminate].
      injection Hstep as <-. apply reset_unsorted. tauto.
    + destruct (add_pre s qv ac idx fw); simpl in Hstep; [|discriminate].
      injection Hstep as <-. apply add_unsorted; tauto.
Qed.

Lemma rankable_small (ops : list (SeedResults.op E)) :
  rankable_ops ops -> small_resets ops.
Proof.
  unfold rankable_ops, small_resets. intros H.
  eapply Forall_impl; [exact H|].
  intros [read offs n | qv ac idx fw len]; tauto.
Qed.

(** The buckets of one orientation that hold elements, counted along the
    scan order, are as many as the sum of [w_holds] over the array. *)
Lemma count_holding (fw : bool) (pre l : list QVal) :
  Z.of_nat (length (filter
    (fun b : bucket_id =>
       match (pre ++ l) !! b.2 with
       | Some q => qv_valid q && (0 <? qv_numElts q)
       | None => false
       end = true)
    (pair fw <$> seq (length pre) (length l))))
  = sum_over w_holds l.
Proof.
  revert pre. induction l as [|q l IH]; intros pre; [reflexivity|].
  simpl length. simpl seq. csimpl. rewrite filter_cons.
  specialize (IH (pre ++ [q])).
  rewrite <- app_assoc in IH. simpl in IH.
  replace (length (pre ++ [q])) with (S (length pre)) in IH
    by (rewrite length_app; simpl; lia).
  cbn [snd]. rewrite lookup_app_r, Nat.sub_diag by lia. cbn [lookup list_lookup].
  unfold w_holds at 1.
  destruct (qv_valid q && (0 <? qv_numElts q)).
  - rewrite decide_True by reflexivity. simpl length.
    rewrite Nat2Z.inj_succ, <- Z.add_1_l. f_equal. exact IH.
  - rewrite decide_False by discriminate. rewrite Z.add_0_l. exact IH.
Qed.

Lemma count_nonempty (s : SeedResults.t E) :
  length (hitsFw_ s) = numOffs_ s -> length (hitsRc_ s) = numOffs_ s ->
  Z.of_nat (length (nonempty_buckets s)) =
  sum_over w_holds (hitsRc_ s) + sum_over w_holds (hitsFw_ s).
Proof.
  intros HF HR. unfold nonempty_buckets, all_buckets.
  rewrite filter_app, length_app, Nat2Z.inj_add.
  rewrite <- (count_holding false [] (hitsRc_ s)).
  rewrite <- (count_holding true [] (hitsFw_ s)).
  rewrite HF, HR. simpl.
  f_equal; f_equal; f_equal.
  - apply (filter_bool_ext
             (fun b : bucket_id =>
                match hitsRc_ s !! b.2 with
                | Some q => qv_valid q && (0 <? qv_numElts q)
                | None => false
                end) (holds_elts s)).
    intros c Hc. apply list_elem_of_fmap in Hc as (i & -> & _). reflexivity.
  - apply (filter_bool_ext
             (fun b : bucket_id =>
                match hitsFw_ s !! b.2 with
                | Some q => qv_valid q && (0 <? qv_numElts q)
                | None => false
                end) (holds_elts s)).
    intros c Hc. apply list_elem_of_fmap in Hc as (i & -> & _). reflexivity.
Qed.

Lemma holds_is_nonz (l : list QVal) :
  Forall bucket_ok l -> Forall stored_ok l ->
  sum_over w_holds l = sum_over w_nonz l.
Proof.
  intros Hok Hst. induction l as [|q l IH]; [reflexivity|].
  apply Forall_cons in Hok as [Hq Hok]. apply Forall_cons in Hst as [Hs Hst].
  simpl. rewrite (IH Hok Hst). f_equal.
  unfold w_holds, w_nonz, bucket_ok, stored_ok in *.
  destruct (qv_valid q); [|reflexivity].
  specialize (Hq eq_refl). specialize (Hs eq_refl). simpl.
  rewrite !ltb_true by lia. reflexivity.
Qed.

(** A state that satisfies both invariants is one in which [sort] may be
    called. *)
Lemma inv_unsorted_ready (s : SeedResults.t E) :
  inv s -> unsorted s -> sort_ready s.
Proof.
  intros Hinv Hun. destruct Hinv, Hun. constructor; try assumption.
  - unfold MAX_OFFS, UINT32_MAX in *. lia.
  - rewrite count_nonempty by assumption.
    rewrite !holds_is_nonz by assumption. lia.
  - intros [fw i]. unfold holds_elts, elts_at, bucket. simpl.
    destruct fw.
    + destruct (hitsFw_ s !! i) as [q|] eqn:Hq; [|discriminate].
      intros Hh. apply andb_prop in Hh as [Hv _].
      rewrite Forall_forall in un_storedFw0.
      apply (un_storedFw0 q (list_elem_of_lookup_2 _ _ _ Hq) Hv).
    + destruct (hitsRc_ s !! i) as [q|] eqn:Hq; [|discriminate].
      intros Hh. apply andb_prop in Hh as [Hv _].
      rewrite Forall_forall in un_storedRc0.
      apply (un_storedRc0 q (list_elem_of_lookup_2 _ _ _ Hq) Hv).
Qed.

(** After a sequence of calls that starts with [reset] and whose calls pass
    the assertions on their arguments, nothing is ranked yet and [sort] may
    be called. *)
Lemma run_sort_ready
    (s0 s : SeedResults.t E) (read : Read) (offs : list Z) (n : nat)
    (ops : list (SeedResults.op E)) :
  rankable_ops (Reset read offs n :: ops) ->
  run s0 (Reset read offs n :: ops) = Some s ->
  sort_ready s.
Proof.
  intros Hops Hrun.
  pose proof (rankable_small _ Hops) as Hsmall.
  simpl in Hrun.
  destruct (reset_checked s0 read offs n) as [s1|] eqn:Hreset; simpl in Hrun;
    [|discriminate].
  apply Forall_cons in Hops as [[Hn Hoffs] Hops].
  apply Forall_cons in Hsmall as [_ Hsmall].
  apply inv_unsorted_ready.
  - apply (run_inv ops s1 s); [|exact Hsmall | exact Hrun].
    apply (step_inv s0 s1 (Reset read offs n)); [exact Hn | exact I | exact Hreset].
  - apply (run_unsorted ops s1 s); [|exact Hops | exact Hrun].
    unfold reset_checked in Hreset.
    destruct (0 <? n)%nat; simpl in Hreset; [|discriminate].
    injection Hreset as <-. apply reset_unsorted, Hoffs.
Qed.


(** C2, with the reverse-complement bucket first, for the first [sort] after
    [reset].  Let the results be built by [reset] and the calls of [add] and
    [reset] that follow it, every call passing the assertions on its
    arguments, with at most [2^31] offsets, an offset map with an entry per
    offset, and every added QVal that is not empty holding at least one range
    and fewer than [0xffffffff] elements.  Then [sort] returns, and whenever
    two buckets hold the same positive number of elements, the one that the
    scan visits first has the better rank: the reverse-complement bucket is
    ranked before the forward one, and of two buckets of the same orientation
    the one with the lower offset index is ranked first. *)
Theorem sort_ties_in_scan_order
    (s0 s : SeedResults.t E) (read : Read) (offs : list Z) (n : nat)
    (ops : list (SeedResults.op E)) :
  rankable_ops (Reset read offs n :: ops) ->
  run s0 (Reset read offs n :: ops) = Some s ->
  exists s', sort s = Some s' /\
    forall b1 b2,
      holds_elts s' b1 = true -> holds_elts s' b2 = true ->
      elts_at s' b1 = elts_at s' b2 -> scan_before b1 b2 ->
      ranked_before s' b1 b2.
Proof.
  intros Hops Hrun.
  pose proof (run_sort_ready s0 s read offs n ops Hops Hrun) as Hready.
  destruct (sort_result s Hready)
    as (s' & Hsort & Hframe & Hlen & Hnd & Horder & Hmem & Hread).
  exists s'. split; [exact Hsort|].
  intros b1 b2 H1 H2 Heq Hscan.
  assert (Hin : forall b, holds_elts s' b = true -> b ∈ ranks s').
  { intros b Hb. apply Hmem. unfold nonempty_buckets.
    apply list_elem_of_filter. split; [exact Hb|].
    apply elem_of_all_buckets. unfold holds_elts, bucket in Hb.
    destruct b as [[] i]; simpl in *.
    - destruct (hitsFw_ s' !! i) eqn:Hl; [|discriminate].
      apply lookup_lt_Some in Hl.
      assert (Hh : hitsFw_ s' = hitsFw_ s)
        by (apply (f_equal hitsFw_) in Hframe; destruct s, s'; exact Hframe).
      assert (Hn : numOffs_ s' = numOffs_ s)
        by (apply (f_equal numOffs_) in Hframe; destruct s, s'; exact Hframe).
      rewrite Hh in Hl. rewrite Hn, <- (ready_hitsFw s Hready). exact Hl.
    - destruct (hitsRc_ s' !! i) eqn:Hl; [|discriminate].
      apply lookup_lt_Some in Hl.
      assert (Hh : hitsRc_ s' = hitsRc_ s)
        by (apply (f_equal hitsRc_) in Hframe; destruct s, s'; exact Hframe).
      assert (Hn : numOffs_ s' = numOffs_ s)
        by (apply (f_equal numOffs_) in Hframe; destruct s, s'; exact Hframe).
      rewrite Hh in Hl. rewrite Hn, <- (ready_hitsRc s Hready). exact Hl. }
  destruct (list_elem_of_lookup_1 _ _ (Hin b1 H1)) as [r1 Hr1].
  destruct (list_elem_of_lookup_1 _ _ (Hin b2 H2)) as [r2 Hr2].
  exists r1, r2. split; [|auto].
  destruct (Nat.lt_trichotomy r1 r2) as [Hlt | [-> | Hgt]]; [exact Hlt | |].
  - rewrite Hr1 in Hr2. injection Hr2 as ->.
    destruct (scan_before_irrefl _ Hscan).
  - pose proof (sorted_lookup _ _ r2 r1 b2 b1 Horder Hgt Hr2 Hr1)
      as [Hlt | [_ Hback]]; [lia|].
    destruct (scan_before_asym _ _ Hscan Hback).
Qed.

End FirstSortFacts.


Lemma tie_rankable : SeedResultsSpec.rankable_ops tie_ops.
Proof.
  repeat constructor; unfold SeedResultsSpec.MAX_OFFS, UINT32_MAX; simpl;
    try lia; intros; try discriminate; lia.
Qed.


Lemma sort_ties_in_scan_order_witness :
  SeedResults.run constructed tie_ops = Some tie_added /\
  exists s', SeedResults.sort tie_added = Some s' /\
    SeedResultsSpec.ranked_before s' (false, 0%nat) (true, 0%nat).
Proof.
  assert (Hrun : SeedResults.run constructed tie_ops = Some tie_added)
    by (vm_compute; reflexivity).
  split; [exact Hrun|].
  destruct (sort_ties_in_scan_order (L := concrete_laws) constructed tie_added
              tt [0] 1%nat (tail tie_ops) tie_rankable Hrun)
    as (s' & Hsort & Hties).
  exists s'. split; [exact Hsort|].
  assert (Hs' : s' = tie_sorted)
    by (assert (Hc : SeedResults.sort tie_added = Some tie_sorted)
          by (vm_compute; reflexivity); congruence).
  rewrite Hs' in Hties |- *.
  apply Hties; [vm_compute; reflexivity .. |].
  left. split; reflexivity.
Defined.

(** C2 fails with the forward bucket first.  When the forward and the
    reverse-complement bucket of offset 0 both hold three elements, [sort]
    ranks the reverse-complement bucket first: the ranking is
    [(rc, 0); (fw, 0)]. *)
Lemma sort_ranks_rc_first_on_tie :
  SeedResults.run constructed tie_ops = Some tie_added /\
  SeedResults.sort tie_added = Some tie_sorted /\
  SeedResultsSpec.ranks tie_sorted = [(false, 0%nat); (true, 0%nat)] /\
  ~ SeedResultsSpec.fw_first_on_ties tie_sorted.
Proof.
  split; [vm_compute; reflexivity|]. split; [vm_compute; reflexivity|].
  assert (Hranks : SeedResultsSpec.ranks tie_sorted = [(false, 0%nat); (true, 0%nat)])
    by (vm_compute; reflexivity).
  split; [exact Hranks|].
  intros Hfw.
  assert (H1 : SeedResultsSpec.holds_elts tie_sorted (true, 0%nat) = true)
    by (vm_compute; reflexivity).
  assert (H2 : SeedResultsSpec.holds_elts tie_sorted (false, 0%nat) = true)
    by (vm_compute; reflexivity).
  assert (H3 : SeedResultsSpec.elts_at tie_sorted (true, 0%nat) =
               SeedResultsSpec.elts_at tie_sorted (false, 0%nat))
    by (vm_compute; reflexivity).
  destruct (Hfw 0%nat 0%nat H1 H2 H3) as (r1 & r2 & Hlt & Hr1 & Hr2).
  rewrite Hranks in Hr1, Hr2.
  destruct r1 as [|[|r1]], r2 as [|[|r2]]; simpl in Hr1, Hr2;
    try discriminate; lia.
Qed.


(** The tie rule of C2 is a rule of the first [sort] only.  When the forward
    bucket of offset 0 is ranked by a first [sort] and the reverse-complement
    bucket then receives as many elements, a second [sort] keeps the forward
    bucket at rank 0 and appends the reverse-complement one; every assertion
    of [add] and [sort] passes. *)
Example sort_again_after_add_keeps_ranks :
  SeedResults.add_checked fw_tie_sorted (one_range 3) tt 0 false 20
    = Some fw_rc_tie_added /\
  SeedResults.sort_scan fw_rc_tie_added = (3, 0%nat, false) /\
  SeedResults.sort fw_rc_tie_added = Some fw_rc_tie_sorted /\
  SeedResultsSpec.ranks fw_tie_sorted = [(true, 0%nat)] /\
  SeedResultsSpec.ranks fw_rc_tie_sorted = [(true, 0%nat); (false, 0%nat)].
Proof. repeat split; vm_compute; reflexivity. Qed.

(** ** Seed results: from [reset] and [add] to [sort] *)

Section RunSortFacts.

Context {E : Externals} {L : ExternalsLaws E}.

Import SeedResults SeedResultsSpec.

(** From [reset] and [add] to [sort].  After a sequence of calls that starts
    with [reset] and whose calls pass the assertions on their arguments, the
    state is one in which [sort] may be called; [sort] then returns, with as
    many ranks as [nonzeroOffsets()], and the ranked buckets are a permutation
    of the buckets holding a valid QVal with at least one element. *)
Theorem run_then_sort
    (s0 s : SeedResults.t E) (read : Read) (offs : list Z) (n : nat)
    (ops : list (SeedResults.op E)) :
  rankable_ops (Reset read offs n :: ops) ->
  run s0 (Reset read offs n :: ops) = Some s ->
  sort_ready s /\
  exists s', sort s = Some s' /\
             Z.of_nat (length (ranks s')) = nonzeroOffsets s /\
             ranks s' ≡ₚ nonempty_buckets s'.
Proof.
  intros Hops Hrun.
  pose proof (rankable_small _ Hops) as Hsmall.
  simpl in Hrun.
  destruct (reset_checked s0 read offs n) as [s1|] eqn:Hreset; simpl in Hrun;
    [|discriminate].
  apply Forall_cons in Hops as [[Hn Hoffs] Hops].
  apply Forall_cons in Hsmall as [_ Hsmall].
  assert (Hinv : inv s).
  { apply (run_inv ops s1 s); [|exact Hsmall | exact Hrun].
    apply (step_inv s0 s1 (Reset read offs n)); [exact Hn | exact I | exact Hreset]. }
  assert (Hun : unsorted s).
  { apply (run_unsorted ops s1 s); [|exact Hops | exact Hrun].
    unfold reset_checked in Hreset.
    destruct (0 <? n)%nat; simpl in Hreset; [|discriminate].
    injection Hreset as <-. apply reset_unsorted, Hoffs. }
  pose proof (inv_unsorted_ready s Hinv Hun) as Hready.
  split; [exact Hready|].
  destruct (sort_result s Hready)
    as (s' & Hsort & Hframe & Hlen & Hnd & Horder & Hmem & Hread).
  exists s'. split; [exact Hsort|]. split.
  - rewrite Hlen. unfold nonzeroOffsets.
    apply (f_equal nonzTot_) in Hframe. destruct s, s'. exact Hframe.
  - apply NoDup_Permutation; [exact Hnd | | exact Hmem].
    unfold nonempty_buckets. apply NoDup_filter, all_buckets_NoDup.
Qed.

End RunSortFacts.

Lemma run_then_sort_witness :
  SeedResultsSpec.sort_ready three_offsets_added /\
  exists s', SeedResults.sort three_offsets_added = Some s' /\
             Z.of_nat (length (SeedResultsSpec.ranks s')) = 4.
Proof.
  assert (Hrun : SeedResults.run constructed
                   (SeedResults.Reset (E := ConcreteCache.externals) tt [0; 10; 20] 3
                      :: tail three_offsets_ops)
                 = Some three_offsets_added)
    by (vm_compute; reflexivity).
  assert (Hops : SeedResultsSpec.rankable_ops
                   (SeedResults.Reset (E := ConcreteCache.externals) tt [0; 10; 20] 3
                      :: tail three_offsets_ops)).
  { repeat constructor; unfold SeedResultsSpec.MAX_OFFS, UINT32_MAX; simpl;
      try lia; intros; try discriminate; lia. }
  destruct (run_then_sort (L := concrete_laws) constructed three_offsets_added tt
              [0; 10; 20] 3%nat (tail three_offsets_ops) Hops Hrun)
    as (Hready & s' & Hsort & Hlen & _).
  split; [exact Hready|]. exists s'. split; [exact Hsort|].
  rewrite Hlen. vm_compute. reflexivity.
Defined.

(** ** Seed results: after [sort] *)

Section AfterSortFacts.

Context {E : Externals}.

Import SeedResults SeedResultsSpec.

(** [sort] is idempotent: a second call finds as many ranks as
    [nonzeroOffsets()] and changes nothing. *)
Theorem sort_idempotent (s : SeedResults.t E) :
  sort_ready s ->
  exists s', sort s = Some s' /\ sort s' = Some s'.
Proof.
  intros Hready.
  destruct (sort_sorted s Hready) as (s1 & Hsort & Hs1 & Hlen & _).
  exists (set_sorted true s1). split; [exact Hsort|].
  pose proof (length_ranks s1 (sorting_lenRank _ _ Hs1)) as Hlr.
  assert (Hcond : (Z.of_nat (length (rankOffs_ (set_sorted true s1)))
                   <? nonzTot_ (set_sorted true s1)) = false)
    by (simpl; apply Z.ltb_ge; lia).
  unfold sort. destruct (Z.to_nat (nonzTot_ (set_sorted true s1)));
    cbn [sort_loop]; rewrite Hcond; destruct s1; reflexivity.
Qed.



End AfterSortFacts.

Lemma sort_idempotent_witness :
  SeedResults.sort three_offsets_added = Some three_offsets_sorted /\
  SeedResults.sort three_offsets_sorted = Some three_offsets_sorted.
Proof.
  destruct (sort_idempotent three_offsets_added three_offsets_ready)
    as (s' & Hsort & Hagain).
  assert (Hc : SeedResults.sort three_offsets_added = Some three_offsets_sorted)
    by (vm_compute; reflexivity).
  assert (Hs' : s' = three_offsets_sorted) by congruence.
  rewrite Hs' in Hagain. split; [exact Hc | exact Hagain].
Defined.


(** ** Search metrics: merging in any order *)

Lemma merge_swap (a x y : SeedSearchMetrics.t) (g : bool) :
  SeedSearchMetrics.merge (SeedSearchMetrics.merge a x g) y g =
  SeedSearchMetrics.merge (SeedSearchMetrics.merge a y g) x g.
Proof.
  apply metrics_eq; simpl; rewrite !wrap_u64_add_l; f_equal; lia.
Qed.

(** The order in which the metrics of several threads are merged into a
    shared object does not matter: merging any permutation of them gives the
    same counters. *)
Theorem merge_all_order_independent
    (acc : SeedSearchMetrics.t) (ms ms' : list SeedSearchMetrics.t) (g : bool) :
  ms ≡ₚ ms' ->
  merge_all acc ms g = merge_all acc ms' g.
Proof.
  intros Hperm. revert acc. unfold merge_all.
  induction Hperm as [|m ms ms' Hp IH | m1 m2 ms | ms1 ms2 ms3 H1 IH1 H2 IH2];
    intros acc; simpl.
  - reflexivity.
  - apply IH.
  - rewrite merge_swap. reflexivity.
  - rewrite IH1. apply IH2.
Qed.

Lemma merge_all_order_independent_witness :
  merge_all metrics_a [metrics_a; metrics_b] false =
  merge_all metrics_a [metrics_b; metrics_a] false.
Proof.
  apply merge_all_order_independent. apply perm_swap.
Defined.

(** ** Seed results: what [add] never does *)

Section MoreAddFacts.

Context {E : Externals} {L : ExternalsLaws E}.

Import SeedResults SeedResultsSpec.

Lemma add_keeps_set_bucket (s : SeedResults.t E) (qv : QVal)
    (ac : AlignmentCache) (idx : nat) (fw : bool) (len : Z)
    (fw' : bool) (i : nat) (q : QVal) :
  add_pre s qv ac idx fw = true ->
  hitsAtOffIdx s fw' i = Some q -> qv_valid q = true ->
  hitsAtOffIdx (add s qv ac idx fw len) fw' i = Some q.
Proof.
  intros Hpre Hq Hv. unfold add_pre in Hpre.
  apply andb_prop in Hpre as [_ Hbk].
  unfold add. destruct (qv_empty qv) eqn:Hemp; [exact Hq|].
  simpl in Hbk. unfold bucket in Hbk. unfold hitsAtOffIdx in *.
  assert (Hne : (fw', i) <> (fw, idx)).
  { intros [= -> ->]. destruct fw; rewrite Hq in Hbk; rewrite Hv in Hbk;
      discriminate. }
  destruct fw, fw', (0 <? qv_numRanges qv); simpl; try exact Hq;
    rewrite list_lookup_insert_ne by congruence; exact Hq.
Qed.

(** [add] never overwrites a hit.  Along any sequence of calls of [add] that
    pass the assertions on their arguments, a bucket that holds a valid QVal
    keeps that QVal: between two calls of [reset], hits are only added. *)
Theorem add_never_overwrites (ops : list (SeedResults.op E))
    (s s' : SeedResults.t E) (fw : bool) (i : nat) (q : QVal) :
  only_adds ops -> run s ops = Some s' ->
  hitsAtOffIdx s fw i = Some q -> qv_valid q = true ->
  hitsAtOffIdx s' fw i = Some q.
Proof.
  revert s. induction ops as [|o ops IH]; intros s Hadds Hrun Hq Hv;
    simpl in Hrun.
  - injection Hrun as <-. exact Hq.
  - apply Forall_cons in Hadds as [Ho Hadds].
    destruct o as [read offs n | qv ac idx fw0 len]; [destruct Ho|].
    simpl in Hrun.
    destruct (add_pre s qv ac idx fw0) eqn:Hpre; simpl in Hrun; [|discriminate].
    apply (IH _ Hadds Hrun); [|exact Hv].
    apply add_keeps_set_bucket; assumption.
Qed.

(** In a state reached by [reset] and [add], the counters do not wrap
    around: [add] of a QVal that is not empty increases [numElts()] and
    [numRanges()] by exactly [qv.numElts()] and [qv.numRanges()], and
    [nonzeroOffsets()] by one when [qv.numRanges() > 0]. *)
Theorem add_counts_exactly (s : SeedResults.t E) (qv : QVal)
    (ac : AlignmentCache) (idx : nat) (fw : bool) (len : Z) :
  inv s -> add_pre s qv ac idx fw = true -> qv_empty qv = false ->
  let s' := add s qv ac idx fw len in
  numElts s' = numElts s + qv_numElts qv /\
  numRanges s' = numRanges s + qv_numRanges qv /\
  nonzeroOffsets s' =
    nonzeroOffsets s + (if 0 <? qv_numRanges qv then 1 else 0) /\
  numElts s <= numElts s' /\ numRanges s <= numRanges s' /\
  in_u64 (numElts s').
Proof.
  intros Hinv Hpre Hemp. cbv zeta.
  pose proof (add_inv s qv ac idx fw len Hinv Hpre) as Hinv'.
  unfold add_pre in Hpre.
  apply andb_prop in Hpre as [Hpre Hbk]. apply andb_prop in Hpre as [Hpre _].
  apply andb_prop in Hpre as [Hrep _].
  rewrite Hemp in Hbk. simpl in Hbk.
  destruct (bucket s fw idx) as [old|] eqn:Hold; [|discriminate].
  apply negb_true_iff in Hbk.
  pose proof (qv_repOk_counts qv ac Hrep) as (Hr0 & Hre & Hmax).
  assert (Hhits : hitsFw_ (add s qv ac idx fw len) =
                    (if fw then <[idx := qv]> (hitsFw_ s) else hitsFw_ s) /\
                  hitsRc_ (add s qv ac idx fw len) =
                    (if fw then hitsRc_ s else <[idx := qv]> (hitsRc_ s))).
  { unfold add. rewrite Hemp.
    destruct fw, (0 <? qv_numRanges qv); simpl; auto. }
  destruct Hhits as [HF HR].
  destruct Hinv as [? ? ? ? okF okR eF eR rF rR nF nR eT rT nT].
  destruct Hinv' as [? ? ? ? okF' okR' eF' eR' rF' rR' nF' nR' eT' rT' nT'].
  pose proof (sums_fit_u64 _ okF' ltac:(lia)) as BF'.
  pose proof (sums_fit_u64 _ okR' ltac:(lia)) as BR'.
  unfold numElts, numRanges, nonzeroOffsets, in_u64.
  rewrite eT', rT', nT', eF', eR', rF', rR', nF', nR', HF, HR.
  rewrite eT, rT, nT, eF, eR, rF, rR, nF, nR.
  rewrite HF in BF'. rewrite HR in BR'.
  destruct fw; simpl in Hold.
  - destruct (sums_after_store _ _ _ _ _ okF Hold Hbk Hrep) as (_ & -> & -> & ->).
    destruct (sums_after_store _ _ _ _ _ okF Hold Hbk Hrep) as (_ & He & Hr & Hn).
    rewrite He, Hr, Hn in BF'. repeat split; lia.
  - destruct (sums_after_store _ _ _ _ _ okR Hold Hbk Hrep) as (_ & -> & -> & ->).
    destruct (sums_after_store _ _ _ _ _ okR Hold Hbk Hrep) as (_ & He & Hr & Hn).
    rewrite He, Hr, Hn in BR'. repeat split; lia.
Qed.

End MoreAddFacts.

Lemma one_offset_inv : SeedResultsSpec.inv one_offset.
Proof.
  apply (reset_inv (L := concrete_laws)); [lia|].
  unfold SeedResultsSpec.MAX_OFFS. simpl. lia.
Qed.

Lemma add_never_overwrites_witness :
  SeedResults.hitsAtOffIdx three_offsets_added true 0 = Some (one_range 5).
Proof.
  assert (Hadds : SeedResultsSpec.only_adds (drop 2 three_offsets_ops))
    by (repeat constructor).
  assert (Hs1 : exists s1,
            SeedResults.run constructed (take 2 three_offsets_ops) = Some s1 /\
            SeedResults.run s1 (drop 2 three_offsets_ops) = Some three_offsets_added /\
            SeedResults.hitsAtOffIdx s1 true 0 = Some (one_range 5)).
  { eexists. split; [vm_compute; reflexivity|].
    split; vm_compute; reflexivity. }
  destruct Hs1 as (s1 & _ & Hrun & Hq).
  apply (add_never_overwrites (drop 2 three_offsets_ops) s1 three_offsets_added
           true 0%nat (one_range 5) Hadds Hrun Hq).
  vm_compute. reflexivity.
Defined.

Lemma add_counts_exactly_witness :
  SeedResults.numElts (SeedResults.add one_offset (one_range 5) tt 0 true 20) =
  SeedResults.numElts one_offset + 5.
Proof.
  assert (Hpre : SeedResults.add_pre one_offset (one_range 5) tt 0 true = true)
    by (vm_compute; reflexivity).
  assert (Hemp : qv_empty (one_range 5) = false) by (vm_compute; reflexivity).
  destruct (add_counts_exactly (L := concrete_laws) one_offset (one_range 5) tt
              0%nat true 20 one_offset_inv Hpre Hemp) as [He _].
  exact He.
Defined.
